(** * GPflow mean functions: a shallow embedding of gpflow/mean_functions.py

    The module builds small expression trees of mean functions (Linear,
    Identity, Constant, Zero, SwitchedMeanFunction, Additive, Product) and
    evaluates them on batches: a batch is a matrix whose rows are the data.

    Scalars.  The entries of a tensor are values of the configured float
    type.  The development is generic in the scalar type: it only needs the
    constants 0 and 1, addition, multiplication, the cast to int32 used for
    labels, and the commutativity of the two operations.  Rationals give the
    instance on which concrete batches are evaluated.

    Tensors.  A batch is a rank 2 tensor, kept with its column count so that
    a batch with no rows still has a width; a rank 1 tensor is a list.  The
    tensor engine operations used by the module (matmul, broadcasting add
    and multiply, tile, zeros, eye, transpose, gather, range,
    dynamic_partition, dynamic_stitch) are modelled on these, with the
    failures the engine raises as values of [error].

    Parameters.  Inside __call__ the decorator params_as_tensors makes a
    Parameter attribute read as its current tensor value, so a parameter is
    modelled by that value: A is a matrix, b and c are vectors, as the
    constructors document them. *)

From Stdlib Require Import String ZArith QArith Lia Bool Arith PeanoNat List.
Import ListNotations.

Local Open Scope nat_scope.

(** ** Scalars *)

Class Scalar (R : Type) : Type := {
  szero : R;
  sone : R;
  sadd : R -> R -> R;
  smul : R -> R -> R;
  cast_int32 : R -> Z;
  sadd_comm : forall x y, sadd x y = sadd y x;
  smul_comm : forall x y, smul x y = smul y x
}.

(** ** Failures *)

Inductive error : Type :=
| DimensionMismatch      (* matmul: inner dimensions differ *)
| IncompatibleShapes     (* broadcasting, tile, stitch: shapes do not agree *)
| IndexOutOfRange        (* gather index or partition label outside its range *)
| InvalidAttr            (* an op built with fewer than one partition *)
| AttributeError         (* attribute absent on the object *)
| ValueError (msg : string).

Inductive result (A : Type) : Type :=
| OK (a : A)
| Error (e : error).

Arguments OK {A} a.
Arguments Error {A} e.

Definition bind {A B : Type} (r : result A) (k : A -> result B) : result B :=
  match r with
  | OK a => k a
  | Error e => Error e
  end.

Notation "x <- c1 ;; c2" := (bind c1 (fun x => c2))
  (at level 61, c1 at next level, right associativity).

Definition is_ok {A : Type} (r : result A) : bool :=
  match r with OK _ => true | Error _ => false end.

(** [mapM f l]: apply [f] to every element, left to right, stopping at the
    first failure. *)
Fixpoint mapM {A B : Type} (f : A -> result B) (l : list A) : result (list B) :=
  match l with
  | [] => OK []
  | a :: l' => b <- f a ;; bs <- mapM f l' ;; OK (b :: bs)
  end.

(** [zipM f ms xs] is the comprehension [[f m x for x, m in zip(xs, ms)]]. *)
Definition zipM {A B C : Type} (f : A -> B -> result C) :=
  fix go (ms : list A) (xs : list B) {struct ms} : result (list C) :=
    match ms, xs with
    | m :: ms', x :: xs' => r <- f m x ;; rs <- go ms' xs' ;; OK (r :: rs)
    | _, _ => OK []
    end.

(** List update by index; out of range it changes nothing. *)
Fixpoint list_update {A : Type} (i : nat) (x : A) (l : list A) : list A :=
  match l, i with
  | [], _ => []
  | _ :: l', O => x :: l'
  | a :: l', S i' => a :: list_update i' x l'
  end.

(** ** Tensors and the tensor engine *)

Section Engine.

Context {R : Type} `{Scalar R}.

Record matrix : Type := mk_matrix {
  ncols : nat;
  rows : list (list R)
}.

Definition nrows (M : matrix) : nat := length (rows M).

Definition wf_matrix (M : matrix) : Prop :=
  Forall (fun r => length r = ncols M) (rows M).

(** tf.shape *)
Definition tf_shape (M : matrix) : list nat := [nrows M; ncols M].

Definition entry (M : matrix) (i j : nat) : R :=
  nth j (nth i (rows M) []) szero.

Definition column (j : nat) (M : matrix) : list R :=
  map (fun r => nth j r szero) (rows M).

(** tf.transpose of a rank 2 tensor *)
Definition tf_transpose (M : matrix) : matrix :=
  {| ncols := nrows M;
     rows := map (fun j => column j M) (seq 0 (ncols M)) |}.

Definition dot (u v : list R) : R :=
  fold_left (fun acc p => sadd acc (smul (fst p) (snd p))) (combine u v) szero.

(** tf.matmul *)
Definition tf_matmul (X A : matrix) : result matrix :=
  if ncols X =? nrows A then
    OK {| ncols := ncols A;
          rows := map (fun r => map (fun j => dot r (column j A))
                                    (seq 0 (ncols A)))
                      (rows X) |}
  else Error DimensionMismatch.

(** Broadcasting of one axis: equal sizes, or one of them is 1. *)
Definition broadcast_dim (a b : nat) : result nat :=
  if a =? b then OK a
  else if a =? 1 then OK b
  else if b =? 1 then OK a
  else Error IncompatibleShapes.

(** Element [i] along an axis of size [n] that is broadcast. *)
Definition pick {A : Type} (n i : nat) (l : list A) (d : A) : A :=
  nth (if n =? 1 then 0 else i) l d.

Definition broadcast_row (op : R -> R -> R) (q a b : nat) (u v : list R)
  : list R :=
  map (fun j => op (pick a j u szero) (pick b j v szero)) (seq 0 q).

Definition broadcast_op (op : R -> R -> R) (X Y : matrix) : result matrix :=
  n <- broadcast_dim (nrows X) (nrows Y) ;;
  q <- broadcast_dim (ncols X) (ncols Y) ;;
  OK {| ncols := q;
        rows := map (fun i => broadcast_row op q (ncols X) (ncols Y)
                                (pick (nrows X) i (rows X) [])
                                (pick (nrows Y) i (rows Y) []))
                    (seq 0 n) |}.

(** tf.add and tf.multiply (the operator + is tf.add) *)
Definition tf_add : matrix -> matrix -> result matrix := broadcast_op sadd.
Definition tf_multiply : matrix -> matrix -> result matrix := broadcast_op smul.

(** A rank 1 operand of a broadcast against a rank 2 one is aligned with
    the last axis: a vector of length q acts as a 1 x q matrix. *)
Definition expand_vector (b : list R) : matrix :=
  {| ncols := length b; rows := [b] |}.

(** np.reshape(c, (1, -1)) *)
Definition np_reshape_row (c : list R) : matrix :=
  {| ncols := length c; rows := [c] |}.

(** tf.tile on a rank 2 tensor: [multiples] must have one entry per axis. *)
Definition tf_tile (M : matrix) (multiples : list nat) : result matrix :=
  match multiples with
  | [a; b] =>
      OK {| ncols := ncols M * b;
            rows := concat (repeat (map (fun r => concat (repeat r b)) (rows M)) a) |}
  | _ => Error IncompatibleShapes
  end.

(** tf.zeros for the shape of a batch (rank 2 is what [matrix] holds) and
    for a rank 1 shape. *)
Definition tf_zeros (shape : list nat) : result matrix :=
  match shape with
  | [n; q] => OK {| ncols := q; rows := repeat (repeat szero q) n |}
  | _ => Error IncompatibleShapes
  end.

Definition tf_zeros_1d (n : nat) : list R := repeat szero n.

(** tf.eye *)
Definition tf_eye (d : nat) : matrix :=
  {| ncols := d;
     rows := map (fun i => map (fun j => if i =? j then sone else szero) (seq 0 d))
                 (seq 0 d) |}.

(** tf.range(start, limit); every use in the module starts at 0, so the
    values are indices.  The engine refuses limit < start; in the module
    that only arises for a batch without columns, whose evaluation has
    failed in the gather of the label column before the range is used. *)
Definition tf_range (start limit : Z) : list nat :=
  seq (Z.to_nat start) (Z.to_nat (limit - start)).

(** tf.gather along axis 0 with a scalar index: the result loses the axis. *)
Definition tf_gather_row (M : matrix) (i : Z) : result (list R) :=
  if (0 <=? i)%Z && (i <? Z.of_nat (nrows M))%Z
  then OK (nth (Z.to_nat i) (rows M) [])
  else Error IndexOutOfRange.

(** tf.gather along axis 0 with a vector of indices. *)
Definition tf_gather_rows (M : matrix) (idx : list nat) : result matrix :=
  rs <- mapM (fun i => tf_gather_row M (Z.of_nat i)) idx ;;
  OK {| ncols := ncols M; rows := rs |}.

(** tf.cast(ind, tf.int32) *)
Definition tf_cast_int32 (v : list R) : list Z := map cast_int32 v.

(** The elements of [data] whose partition number is [g], in order. *)
Fixpoint select {A : Type} (g : Z) (data : list A) (partitions : list Z)
  : list A :=
  match data, partitions with
  | d :: ds, p :: ps =>
      if (p =? g)%Z then d :: select g ds ps else select g ds ps
  | _, _ => []
  end.

Definition label_ok (K : nat) (p : Z) : bool :=
  (0 <=? p)%Z && (p <? Z.of_nat K)%Z.

(** tf.dynamic_partition along axis 0. *)
Definition tf_dynamic_partition {A : Type} (data : list A) (partitions : list Z)
  (K : nat) : result (list (list A)) :=
  if K =? 0 then Error InvalidAttr
  else if negb (length data =? length partitions) then Error IncompatibleShapes
  else if forallb (label_ok K) partitions
       then OK (map (fun g => select (Z.of_nat g) data partitions) (seq 0 K))
       else Error IndexOutOfRange.

Definition partition_rows (X : matrix) (partitions : list Z) (K : nat)
  : result (list matrix) :=
  parts <- tf_dynamic_partition (rows X) partitions K ;;
  OK (map (mk_matrix (ncols X)) parts).

(** The writes a stitch performs, in order: (index, row) pairs. *)
Definition stitch_writes (indices : list (list nat)) (data : list matrix)
  : list (nat * list R) :=
  concat (map (fun p => combine (fst p) (rows (snd p))) (combine indices data)).

Definition max_index_succ (w : list (nat * list R)) : nat :=
  fold_right (fun p m => Nat.max (S (fst p)) m) 0 w.

Definition apply_writes (w : list (nat * list R)) (init : list (list R))
  : list (list R) :=
  fold_left (fun acc p => list_update (fst p) (snd p) acc) w init.

(** tf.dynamic_stitch: data[m] must have one row per index of indices[m]
    and all data must have the same row shape; the merged tensor has
    max index + 1 rows and a later write to an index wins.  A row that no
    index names is left unspecified by the engine; here it is a zero row. *)
Definition tf_dynamic_stitch (indices : list (list nat)) (data : list matrix)
  : result matrix :=
  match data with
  | [] => Error InvalidAttr
  | d0 :: _ =>
      if negb (length indices =? length data) then Error InvalidAttr
      else if forallb (fun p => (length (fst p) =? nrows (snd p))
                                && (ncols (snd p) =? ncols d0))
                      (combine indices data)
      then
        let w := stitch_writes indices data in
        OK {| ncols := ncols d0;
              rows := apply_writes w
                        (repeat (repeat szero (ncols d0)) (max_index_succ w)) |}
      else Error IncompatibleShapes
  end.

(** ** The mean functions *)

#[local] Unset Elimination Schemes.

Inductive MeanFunction : Type :=
| Linear (A : matrix) (b : list R)
| Identity (input_dim : option nat)
| Constant (c : list R)
| Zero (output_dim : nat)
| SwitchedMeanFunction (meanfunction_list : list MeanFunction)
| Additive (add_1 add_2 : MeanFunction)
| Product (prod_1 prod_2 : MeanFunction).

#[local] Set Elimination Schemes.

(** Constructors with the defaults of the __init__ methods. *)
Definition Linear_init (A : option matrix) (b : option (list R)) : MeanFunction :=
  Linear (match A with Some A' => A' | None => {| ncols := 1; rows := [[sone]] |} end)
         (match b with Some b' => b' | None => [szero] end).

Definition Constant_init (c : option (list R)) : MeanFunction :=
  Constant (match c with Some c' => c' | None => [szero] end).

(** The parameter c of Constant as stored: a 1 x Q row. *)
Definition Constant_c (c : list R) : matrix := np_reshape_row c.

(** MeanFunction.__add__ and MeanFunction.__mul__ *)
Definition mf_add (f g : MeanFunction) : MeanFunction := Additive f g.
Definition mf_mul (f g : MeanFunction) : MeanFunction := Product f g.

(** The label column and the feature columns of a switched batch. *)
Definition switch_labels (X : matrix) : result (list Z) :=
  ind <- tf_gather_row (tf_transpose X) (Z.of_nat (ncols X) - 1) ;;
  OK (tf_cast_int32 ind).

Definition switch_features (X : matrix) : result matrix :=
  Xt <- tf_gather_rows (tf_transpose X) (tf_range 0 (Z.of_nat (ncols X) - 1)) ;;
  OK (tf_transpose Xt).

(** __call__ *)
Fixpoint call (m : MeanFunction) (X : matrix) {struct m} : result matrix :=
  match m with
  | Linear A b =>
      XA <- tf_matmul X A ;;
      tf_add XA (expand_vector b)
  | Identity _ => OK X
  | Constant c =>
      let shape := [nth 0 (tf_shape X) 0; 1] in
      tf_tile (Constant_c c) shape
  | Zero output_dim =>
      let shape := removelast (tf_shape X) ++ [output_dim] in
      tf_zeros shape
  | SwitchedMeanFunction meanfunction_list =>
      ind <- switch_labels X ;;
      X' <- switch_features X ;;
      x_list <- partition_rows X' ind (length meanfunction_list) ;;
      results <- zipM call meanfunction_list x_list ;;
      partitions <- tf_dynamic_partition
                      (tf_range 0 (Z.of_nat (length ind))) ind
                      (length meanfunction_list) ;;
      tf_dynamic_stitch partitions results
  | Additive add_1 add_2 =>
      a <- call add_1 X ;;
      b <- call add_2 X ;;
      tf_add a b
  | Product prod_1 prod_2 =>
      a <- call prod_1 X ;;
      b <- call prod_2 X ;;
      tf_multiply a b
  end.

(** ** The A and b properties of the Linear family *)

Definition Identity_msg : string :=
  "An input_dim needs to be specified when using the `Identity` mean function in combination with expectations.".

(** Identity.A and Identity.b *)
Definition Identity_A (input_dim : option nat) : result matrix :=
  match input_dim with
  | None => Error (ValueError Identity_msg)
  | Some d => OK (tf_eye d)
  end.

Definition Identity_b (input_dim : option nat) : result (list R) :=
  match input_dim with
  | None => Error (ValueError Identity_msg)
  | Some d => OK (tf_zeros_1d d)
  end.

(** Reading self.A and self.b. *)
Definition get_A (self : MeanFunction) : result matrix :=
  match self with
  | Linear A _ => OK A
  | Identity input_dim => Identity_A input_dim
  | _ => Error AttributeError
  end.

Definition get_b (self : MeanFunction) : result (list R) :=
  match self with
  | Linear _ b => OK b
  | Identity input_dim => Identity_b input_dim
  | _ => Error AttributeError
  end.

(** The statements self.A = value and self.b = value: the object after the
    assignment.  The setters of Identity are `pass`, and that branch is the
    one taken from this module.  The Linear branch stands for the parameter
    assignment of the framework, without the checks the framework makes on
    the value; the other classes have no such parameter and are left
    outside the model. *)
Definition set_A (self : MeanFunction) (value : matrix) : result MeanFunction :=
  match self with
  | Linear _ b => OK (Linear value b)
  | Identity input_dim => OK (Identity input_dim)
  | _ => Error AttributeError
  end.

Definition set_b (self : MeanFunction) (value : list R) : result MeanFunction :=
  match self with
  | Linear A _ => OK (Linear A value)
  | Identity input_dim => OK (Identity input_dim)
  | _ => Error AttributeError
  end.

(** ** Notions used in the statements *)

(** One output row of Linear, from one input row. *)
Definition linear_row (A : matrix) (b : list R) (q : nat) (x : list R) : list R :=
  broadcast_row sadd q (ncols A) (length b)
    (map (fun j => dot x (column j A)) (seq 0 (ncols A))) b.

(** The position that element [i] takes inside its group: the number of
    earlier elements with the same partition number. *)
Fixpoint rank (g : Z) (partitions : list Z) (i : nat) : nat :=
  match partitions, i with
  | p :: ps, S i' => (if (p =? g)%Z then 1 else 0) + rank g ps i'
  | _, _ => 0
  end.

(** The label and the features of one row of a switched batch with [c]
    columns; the labels, the feature matrix and the group of label [g]. *)
Definition row_label (c : nat) (r : list R) : Z :=
  cast_int32 (nth (c - 1) r szero).

Definition row_features (c : nat) (r : list R) : list R :=
  map (fun j => nth j r szero) (seq 0 (c - 1)).

Definition labels (X : matrix) : list Z := map (row_label (ncols X)) (rows X).

Definition features (X : matrix) : matrix :=
  {| ncols := ncols X - 1; rows := map (row_features (ncols X)) (rows X) |}.

Definition group (g : nat) (X : matrix) : matrix :=
  {| ncols := ncols X - 1;
     rows := select (Z.of_nat g) (rows (features X)) (labels X) |}.

(** The batch with no rows and no columns, the default of [nth] on lists
    of batches. *)
Definition empty_matrix : matrix := {| ncols := 0; rows := [] |}.

(** [sub_batch X' X]: a batch of the same width whose rows all occur in X. *)
Definition sub_batch (X' X : matrix) : Prop :=
  ncols X' = ncols X /\ incl (rows X') (rows X).

(** A batch made of the single row [r]. *)
Definition single_row (q : nat) (r : list R) : matrix :=
  {| ncols := q; rows := [r] |}.

(** The sum of [f 0], ..., [f (n - 1)], added from the left; the dot
    product of a matmul entry is stated with it. *)
Definition sigma (n : nat) (f : nat -> R) : R :=
  fold_left (fun acc k => sadd acc (f k)) (seq 0 n) szero.

(** Induction on mean functions, with the children of a switch. *)
Section MeanFunction_induction.

Variable P : MeanFunction -> Prop.
Hypothesis P_Linear : forall A b, P (Linear A b).
Hypothesis P_Identity : forall d, P (Identity d).
Hypothesis P_Constant : forall c, P (Constant c).
Hypothesis P_Zero : forall q, P (Zero q).
Hypothesis P_Switched : forall ms, Forall P ms -> P (SwitchedMeanFunction ms).
Hypothesis P_Additive : forall f g, P f -> P g -> P (Additive f g).
Hypothesis P_Product : forall f g, P f -> P g -> P (Product f g).

Fixpoint MeanFunction_ind (m : MeanFunction) : P m :=
  match m with
  | Linear A b => P_Linear A b
  | Identity d => P_Identity d
  | Constant c => P_Constant c
  | Zero q => P_Zero q
  | SwitchedMeanFunction ms =>
      P_Switched ms
        ((fix children (l : list MeanFunction) : Forall P l :=
            match l with
            | [] => Forall_nil P
            | m' :: l' => Forall_cons m' (MeanFunction_ind m') (children l')
            end) ms)
  | Additive f g => P_Additive f g (MeanFunction_ind f) (MeanFunction_ind g)
  | Product f g => P_Product f g (MeanFunction_ind f) (MeanFunction_ind g)
  end.

End MeanFunction_induction.

End Engine.

Arguments matrix R : clear implicits.
Arguments MeanFunction R : clear implicits.

(** ** The invocations of a switch *)

(** The comprehension [[m(x) for x, m in zip(x_list, ms)]] with a log of the
    invocations it makes: each iteration calls one child once, and the log
    records, in order, the index of the child and the batch it is called
    on.  An invocation that fails is logged and ends the comprehension. *)
Fixpoint zipM_log {A B C : Type} (f : A -> B -> result C) (g : nat)
  (ms : list A) (xs : list B) {struct ms}
  : result (list C) * list (nat * B) :=
  match ms, xs with
  | m :: ms', x :: xs' =>
      match f m x with
      | OK r =>
          let (rs, log) := zipM_log f (S g) ms' xs' in
          (rs' <- rs ;; OK (r :: rs'), (g, x) :: log)
      | Error e => (Error e, [(g, x)])
      end
  | _, _ => (OK [], [])
  end.

Section Logged.

Context {R : Type} `{Scalar R}.

(** SwitchedMeanFunction.__call__, with the log of the calls of its
    children made by the comprehension. *)
Definition call_switch_logged (meanfunction_list : list (MeanFunction R))
  (X : matrix R) : result (matrix R) * list (nat * matrix R) :=
  match switch_labels X with
  | Error e => (Error e, [])
  | OK ind =>
      match switch_features X with
      | Error e => (Error e, [])
      | OK X' =>
          match partition_rows X' ind (length meanfunction_list) with
          | Error e => (Error e, [])
          | OK x_list =>
              let (results, log) := zipM_log call 0 meanfunction_list x_list in
              (results <- results ;;
               partitions <- tf_dynamic_partition
                               (tf_range 0 (Z.of_nat (length ind))) ind
                               (length meanfunction_list) ;;
               tf_dynamic_stitch partitions results,
               log)
          end
      end
  end.

End Logged.

(** ** Rational scalars *)

(** Truncation toward zero, as the cast of a float to int32 does. *)
Definition Qtrunc (q : Q) : Z := Z.quot (Qnum q) (Z.pos (Qden q)).

#[export] Instance Q_scalar : Scalar Q.
Proof.
  refine {| szero := 0%Q; sone := 1%Q; sadd := Qplus; smul := Qmult;
            cast_int32 := Qtrunc |}.
  - intros [a b] [c d]. unfold Qplus. cbn.
    rewrite Z.add_comm, Pos.mul_comm. reflexivity.
  - intros [a b] [c d]. unfold Qmult. cbn.
    rewrite Z.mul_comm, Pos.mul_comm. reflexivity.
Defined.

(** The batch [[0.1, 0], [0.2, 1], [0.3, 0]] and the two constant children
    of the example of the switched mean function. *)
Definition X_example : matrix Q :=
  {| ncols := 2;
     rows := [[(1 # 10)%Q; 0%Q]; [(2 # 10)%Q; 1%Q]; [(3 # 10)%Q; 0%Q]] |}.

Definition switched_example : MeanFunction Q :=
  SwitchedMeanFunction [Constant [1%Q]; Constant [2%Q]].

(** A 1 x 1 linear map on one feature, a batch of two features and a switch
    with a third child whose label does not occur in [X_example]. *)
Definition A_example : matrix Q := {| ncols := 1; rows := [[2%Q]; [3%Q]] |}.

Definition b_example : list Q := [1%Q].

Definition X_other : matrix Q :=
  {| ncols := 2;
     rows := [[(7 # 10)%Q; 1%Q]; [(2 # 10)%Q; 1%Q]; [(9 # 10)%Q; 1%Q]] |}.

Definition switched_three : MeanFunction Q :=
  SwitchedMeanFunction [Constant [1%Q]; Constant [2%Q]; Linear A_example b_example].

(** ** Integer scalars *)

(** Integers as scalars: exact arithmetic in which 0 and 1 are neutral and
    0 is absorbing, used where a statement needs these laws. *)
#[export] Instance Z_scalar : Scalar Z.
Proof.
  refine {| szero := 0%Z; sone := 1%Z; sadd := Z.add; smul := Z.mul;
            cast_int32 := fun z => z |}.
  - exact Z.add_comm.
  - exact Z.mul_comm.
Defined.

Definition XZ_example : matrix Z :=
  {| ncols := 2; rows := [[5%Z; 0%Z]; [7%Z; 1%Z]; [9%Z; 0%Z]] |}.

(** * Properties *)

(** ** Lists *)

Section ListFacts.

Context {A B : Type}.

Lemma nth_map_lt (f : A -> B) (l : list A) (i : nat) (d : B) (d' : A) :
  i < length l -> nth i (map f l) d = f (nth i l d').
Proof.
  revert i. induction l as [|a l IH]; intros [|i] Hi; cbn in *; try lia.
  - reflexivity.
  - apply IH. lia.
Qed.

Lemma map_nth_seq (l : list A) (d : A) :
  map (fun i => nth i l d) (seq 0 (length l)) = l.
Proof.
  induction l as [|a l IH]; cbn; [reflexivity|].
  f_equal. rewrite <- seq_shift, map_map. exact IH.
Qed.

Lemma map_nth_firstn (l : list A) (d : A) (n : nat) :
  n <= length l -> map (fun j => nth j l d) (seq 0 n) = firstn n l.
Proof.
  revert n. induction l as [|a l IH]; intros [|n] Hn; cbn in *; try lia;
    try reflexivity.
  f_equal. rewrite <- seq_shift, map_map. apply IH. lia.
Qed.

Lemma pick_lt (n i : nat) (l : list A) (d : A) :
  i < n -> pick n i l d = nth i l d.
Proof.
  intros Hi. unfold pick. destruct (n =? 1) eqn:E; [|reflexivity].
  apply Nat.eqb_eq in E. replace i with 0 by lia. reflexivity.
Qed.

Lemma concat_repeat_singleton (x : A) (n : nat) :
  concat (repeat [x] n) = repeat x n.
Proof. induction n; cbn; congruence. Qed.

Lemma fold_left_ext_in (f g : B -> A -> B) (l : list A) (b : B) :
  (forall acc x, In x l -> f acc x = g acc x) ->
  fold_left f l b = fold_left g l b.
Proof.
  revert b. induction l as [|a l IH]; intros b Hfg; cbn; [reflexivity|].
  rewrite Hfg by (left; reflexivity). apply IH.
  intros acc x Hx. apply Hfg. right. exact Hx.
Qed.

Lemma filter_none (f : A -> bool) (l : list A) :
  (forall x, In x l -> f x = false) -> filter f l = [].
Proof.
  induction l as [|a l IH]; intros Hf; cbn; [reflexivity|].
  rewrite (Hf a) by (left; reflexivity).
  apply IH. intros x Hx. apply Hf. right. exact Hx.
Qed.

Lemma Forall_nth_lt (P : A -> Prop) (l : list A) (i : nat) (d : A) :
  Forall P l -> i < length l -> P (nth i l d).
Proof.
  intros HP Hi. rewrite Forall_forall in HP. apply HP. apply nth_In. exact Hi.
Qed.

End ListFacts.

Lemma nth_map_seq {B : Type} (f : nat -> B) (s n i : nat) (d : B) :
  i < n -> nth i (map f (seq s n)) d = f (s + i).
Proof.
  intros Hi. rewrite nth_map_lt with (d' := 0) by (rewrite length_seq; lia).
  rewrite seq_nth by lia. reflexivity.
Qed.


(** ** Selection by partition number *)

Section SelectFacts.

Context {A : Type}.

Lemma select_incl (g : Z) (data : list A) (ind : list Z) (a : A) :
  In a (select g data ind) -> In a data.
Proof.
  revert ind. induction data as [|d ds IH]; intros [|p ps]; cbn; try tauto.
  destruct (p =? g)%Z; cbn; intros Ha.
  - destruct Ha as [Ha|Ha]; [left; exact Ha | right; exact (IH ps Ha)].
  - right. exact (IH ps Ha).
Qed.

Lemma select_NoDup (g : Z) (data : list A) (ind : list Z) :
  NoDup data -> NoDup (select g data ind).
Proof.
  revert ind. induction data as [|d ds IH]; intros [|p ps] Hnd; cbn;
    try constructor.
  inversion Hnd as [|? ? Hd Hds]; subst.
  destruct (p =? g)%Z; [|apply IH; exact Hds].
  constructor; [|apply IH; exact Hds].
  intros Hin. apply Hd. exact (select_incl _ _ _ _ Hin).
Qed.

Lemma select_label_unique (g g' : Z) (data : list A) (ind : list Z) (a : A) :
  NoDup data -> In a (select g data ind) -> In a (select g' data ind) -> g = g'.
Proof.
  revert ind. induction data as [|d ds IH]; intros [|p ps] Hnd; cbn;
    try contradiction.
  inversion Hnd as [|? ? Hd Hds]; subst.
  destruct (p =? g)%Z eqn:Eg, (p =? g')%Z eqn:Eg'; cbn; intros H1 H2.
  - apply Z.eqb_eq in Eg, Eg'. congruence.
  - destruct H1 as [H1|H1]; [|exact (IH ps Hds H1 H2)].
    subst a. exfalso. apply Hd. exact (select_incl _ _ _ _ H2).
  - destruct H2 as [H2|H2]; [|exact (IH ps Hds H1 H2)].
    subst a. exfalso. apply Hd. exact (select_incl _ _ _ _ H1).
  - exact (IH ps Hds H1 H2).
Qed.

Lemma select_rank (g : Z) (data : list A) (ind : list Z) (i : nat) (d : A) :
  i < length data -> length data = length ind -> nth i ind 0%Z = g ->
  rank g ind i < length (select g data ind) /\
  nth (rank g ind i) (select g data ind) d = nth i data d.
Proof.
  revert ind i. induction data as [|x ds IH]; intros [|p ps] i Hi Hl Hg;
    cbn in Hi, Hl; try lia.
  destruct i as [|i].
  - cbn in Hg. subst p. cbn. rewrite Z.eqb_refl. cbn. split; [lia | reflexivity].
  - cbn in Hg. destruct (IH ps i) as [IH1 IH2]; [lia | lia | exact Hg |].
    cbn. destruct (p =? g)%Z; cbn; split; try lia; exact IH2.
Qed.

End SelectFacts.

Lemma length_select {A B : Type} (g : Z) (d1 : list A) (d2 : list B) (ind : list Z) :
  length d1 = length d2 -> length (select g d1 ind) = length (select g d2 ind).
Proof.
  revert d2 ind. induction d1 as [|x d1 IH]; intros [|y d2] [|p ps] Hl;
    cbn in *; try lia; try reflexivity.
  destruct (p =? g)%Z; cbn; rewrite (IH d2 ps) by lia; reflexivity.
Qed.

Lemma select_map {A B : Type} (F : A -> B) (g : Z) (data : list A) (ind : list Z) :
  select g (map F data) ind = map F (select g data ind).
Proof.
  revert ind. induction data as [|x ds IH]; intros [|p ps]; cbn;
    try reflexivity.
  destruct (p =? g)%Z; cbn; rewrite IH; reflexivity.
Qed.

Lemma In_select_map {A B : Type} (F : A -> B) (L : A -> Z) (g : Z)
  (l : list A) (r : B) :
  In r (select g (map F l) (map L l)) <->
  exists x, In x l /\ L x = g /\ F x = r.
Proof.
  induction l as [|a l IH]; cbn.
  - split; [contradiction | intros (x & [] & _)].
  - destruct (L a =? g)%Z eqn:E; cbn; rewrite IH; split.
    + intros [Hr | (x & Hx & Hg & Hr)].
      * exists a. apply Z.eqb_eq in E. auto.
      * exists x. auto.
    + intros (x & [Hx|Hx] & Hg & Hr).
      * subst x. left. exact Hr.
      * right. exists x. auto.
    + intros (x & Hx & Hg & Hr). exists x. auto.
    + intros (x & [Hx|Hx] & Hg & Hr).
      * subst x. apply Z.eqb_neq in E. contradiction.
      * exists x. auto.
Qed.

Lemma select_filter {A B : Type} (F : A -> B) (L : A -> Z) (g : Z) (l : list A) :
  select g (map F l) (map L l) = map F (filter (fun x => (L x =? g)%Z) l).
Proof.
  induction l as [|a l IH]; cbn; [reflexivity|].
  destruct (L a =? g)%Z; cbn; rewrite IH; reflexivity.
Qed.

(** ** Updates and the writes of a stitch *)

Section UpdateFacts.

Context {A : Type}.

Lemma length_list_update (i : nat) (x : A) (l : list A) :
  length (list_update i x l) = length l.
Proof.
  revert i. induction l as [|a l IH]; intros [|i]; cbn; try reflexivity.
  rewrite IH. reflexivity.
Qed.

Lemma nth_list_update_eq (i : nat) (x : A) (l : list A) (d : A) :
  i < length l -> nth i (list_update i x l) d = x.
Proof.
  revert i. induction l as [|a l IH]; intros [|i] Hi; cbn in *; try lia.
  - reflexivity.
  - apply IH. lia.
Qed.

Lemma nth_list_update_neq (i j : nat) (x : A) (l : list A) (d : A) :
  i <> j -> nth j (list_update i x l) d = nth j l d.
Proof.
  revert i j. induction l as [|a l IH]; intros [|i] [|j] Hij; cbn;
    try reflexivity; try lia.
  apply IH. lia.
Qed.

End UpdateFacts.

Section CombineFacts.

Context {A B : Type}.

Lemma In_combine_nth (l : list A) (l' : list B) (p : A * B) (dA : A) (dB : B) :
  In p (combine l l') ->
  exists g, g < length l /\ g < length l' /\ p = (nth g l dA, nth g l' dB).
Proof.
  revert l'. induction l as [|a l IH]; intros [|b l']; cbn; try contradiction.
  intros [Hp|Hp].
  - exists 0. repeat split; try lia. symmetry. exact Hp.
  - destruct (IH l' Hp) as (g & H1 & H2 & H3).
    exists (S g). repeat split; try lia. exact H3.
Qed.

Lemma nth_combine_In (l : list A) (l' : list B) (g : nat) (dA : A) (dB : B) :
  g < length l -> g < length l' ->
  In (nth g l dA, nth g l' dB) (combine l l').
Proof.
  revert l' g. induction l as [|a l IH]; intros [|b l'] [|g] H1 H2;
    cbn in *; try lia.
  - left. reflexivity.
  - right. apply IH; lia.
Qed.

Lemma map_fst_combine_eq (l : list A) (l' : list B) :
  length l = length l' -> map fst (combine l l') = l.
Proof.
  revert l'. induction l as [|a l IH]; intros [|b l'] Hl; cbn in *;
    try lia; try reflexivity.
  rewrite IH by lia. reflexivity.
Qed.

End CombineFacts.

(** ** The error monad *)

Lemma bind_ok {A B : Type} (r : result A) (k : A -> result B) (b : B) :
  bind r k = OK b -> exists a, r = OK a /\ k a = OK b.
Proof. destruct r as [a|e]; cbn; intros Hb; [eauto | discriminate]. Qed.

Ltac inv_bind H :=
  let a := fresh "a" in
  let Ha := fresh "Ha" in
  apply bind_ok in H; destruct H as (a & Ha & H).

Section MonadFacts.

Context {A B C : Type}.

Lemma mapM_ok (f : A -> result B) (g : A -> B) (l : list A) :
  (forall x, In x l -> f x = OK (g x)) -> mapM f l = OK (map g l).
Proof.
  induction l as [|a l IH]; intros Hf; cbn; [reflexivity|].
  rewrite (Hf a) by (left; reflexivity). cbn.
  rewrite IH by (intros x Hx; apply Hf; right; exact Hx). reflexivity.
Qed.

Lemma zipM_inv (f : A -> B -> result C) (ms : list A) (xs : list B)
  (rs : list C) (dm : A) (dx : B) (dr : C) :
  zipM f ms xs = OK rs -> length ms = length xs ->
  length rs = length ms /\
  forall g, g < length ms -> f (nth g ms dm) (nth g xs dx) = OK (nth g rs dr).
Proof.
  revert xs rs. induction ms as [|m ms IH]; intros [|x xs] rs Hz Hl;
    cbn in Hl; try lia.
  - cbn in Hz. injection Hz as <-. split; [reflexivity|]. cbn. lia.
  - cbn in Hz. inv_bind Hz. inv_bind Hz. injection Hz as <-.
    destruct (IH xs a0 Ha0) as [IH1 IH2]; [lia|].
    split; [cbn; lia|].
    intros [|g] Hg; cbn in *; [exact Ha | apply IH2; lia].
Qed.

Lemma zipM_build (f : A -> B -> result C) (ms : list A) (xs : list B)
  (dm : A) (dx : B) :
  length ms = length xs ->
  (forall g, g < length ms -> exists r, f (nth g ms dm) (nth g xs dx) = OK r) ->
  exists rs, zipM f ms xs = OK rs.
Proof.
  revert xs. induction ms as [|m ms IH]; intros [|x xs] Hl Hf;
    cbn in Hl; try lia.
  - exists []. reflexivity.
  - destruct (Hf 0) as (r & Hr); [cbn; lia|]. cbn in Hr.
    destruct (IH xs) as (rs & Hrs); [lia | |].
    + intros g Hg. apply (Hf (S g)). cbn. lia.
    + exists (r :: rs). cbn. rewrite Hr. cbn. rewrite Hrs. reflexivity.
Qed.

Lemma zipM_error (f : A -> B -> result C) (ms : list A) (xs : list B)
  (dm : A) (dx : B) (g : nat) (e : error) :
  length ms = length xs -> g < length ms ->
  f (nth g ms dm) (nth g xs dx) = Error e ->
  exists e', zipM f ms xs = Error e'.
Proof.
  revert xs g. induction ms as [|m ms IH]; intros [|x xs] g Hl Hg He;
    cbn in Hl, Hg; try lia.
  destruct g as [|g]; cbn in He.
  - exists e. cbn. rewrite He. reflexivity.
  - cbn. destruct (f m x) as [r|e0]; cbn; [|eauto].
    destruct (IH xs g) as (e' & He'); [lia | lia | exact He |].
    rewrite He'. cbn. eauto.
Qed.

Lemma zipM_intro (f : A -> B -> result C) (ms : list A) (xs : list B)
  (rs : list C) (dm : A) (dx : B) (dr : C) :
  length ms = length xs -> length rs = length ms ->
  (forall g, g < length ms -> f (nth g ms dm) (nth g xs dx) = OK (nth g rs dr)) ->
  zipM f ms xs = OK rs.
Proof.
  revert xs rs. induction ms as [|m ms IH]; intros [|x xs] [|r rs] Hl Hr Hf;
    cbn in Hl, Hr; try lia; [reflexivity|].
  assert (H0 : f m x = OK r) by (apply (Hf 0); cbn; lia).
  cbn. rewrite H0. cbn.
  rewrite (IH xs rs); [reflexivity | lia | lia |].
  intros g Hg. apply (Hf (S g)). cbn. lia.
Qed.

Lemma fst_zipM_log (f : A -> B -> result C) (g : nat) (ms : list A)
  (xs : list B) :
  fst (zipM_log f g ms xs) = zipM f ms xs.
Proof.
  revert g xs. induction ms as [|m ms IH]; intros g [|x xs]; cbn;
    try reflexivity.
  destruct (f m x) as [r|e]; cbn; [|reflexivity].
  specialize (IH (S g) xs). destruct (zipM_log f (S g) ms xs) as [rs log].
  cbn in *. rewrite IH. reflexivity.
Qed.

Lemma snd_zipM_log_ok (f : A -> B -> result C) (g : nat) (ms : list A)
  (xs : list B) (rs : list C) :
  zipM f ms xs = OK rs -> length ms = length xs ->
  snd (zipM_log f g ms xs) = combine (seq g (length ms)) xs.
Proof.
  revert g xs rs. induction ms as [|m ms IH]; intros g [|x xs] rs Hz Hl;
    cbn in Hl; try lia; [reflexivity|].
  cbn in Hz. apply bind_ok in Hz. destruct Hz as (r & Hr & Hz).
  apply bind_ok in Hz. destruct Hz as (rs' & Hrs & _).
  cbn. rewrite Hr. specialize (IH (S g) xs rs' Hrs).
  destruct (zipM_log f (S g) ms xs) as [rs0 log]. cbn in *.
  rewrite IH by lia. reflexivity.
Qed.

End MonadFacts.

Lemma combine_seq_map {B : Type} (F : nat -> B) (s n : nat) :
  combine (seq s n) (map F (seq s n)) = map (fun g => (g, F g)) (seq s n).
Proof.
  revert s. induction n as [|n IH]; intros s; cbn; [reflexivity|].
  rewrite IH. reflexivity.
Qed.

Section Properties.

Context {R : Type} `{Scalar R}.

Implicit Types (X Y M : matrix R) (m : MeanFunction R).

(** ** Shapes and entries of the engine operations *)

Lemma wf_row_length X i :
  wf_matrix X -> i < nrows X -> length (nth i (rows X) []) = ncols X.
Proof. intros Hwf Hi. apply (Forall_nth_lt _ _ _ _ Hwf Hi). Qed.

Lemma sigma_ext (n : nat) (u v : nat -> R) :
  (forall k, k < n -> u k = v k) -> sigma n u = sigma n v.
Proof.
  intros Huv. unfold sigma. apply fold_left_ext_in.
  intros acc k Hk. apply in_seq in Hk. rewrite Huv by lia. reflexivity.
Qed.

Lemma dot_fold (u v : list R) (s : nat) (acc : R) :
  length u = length v ->
  fold_left (fun a p => sadd a (smul (fst p) (snd p))) (combine u v) acc =
  fold_left (fun a k => sadd a (smul (nth (k - s) u szero) (nth (k - s) v szero)))
            (seq s (length u)) acc.
Proof.
  revert v s acc. induction u as [|x u IH]; intros [|y v] s acc Hl;
    cbn in *; try lia; [reflexivity|].
  rewrite Nat.sub_diag. rewrite (IH v (S s)) by lia.
  apply fold_left_ext_in. intros a k Hk. apply in_seq in Hk.
  replace (k - s) with (S (k - S s)) by lia. reflexivity.
Qed.

Lemma dot_sigma (u v : list R) (n : nat) :
  length u = n -> length v = n ->
  dot u v = sigma n (fun k => smul (nth k u szero) (nth k v szero)).
Proof.
  intros Hu Hv. unfold dot, sigma. rewrite (dot_fold u v 0) by lia.
  rewrite Hu. apply fold_left_ext_in. intros a k _.
  rewrite Nat.sub_0_r. reflexivity.
Qed.

Lemma column_nth (A : matrix R) (j k : nat) :
  k < nrows A -> nth k (column j A) szero = entry A k j.
Proof.
  intros Hk. unfold column, entry.
  rewrite nth_map_lt with (d' := []) by exact Hk. reflexivity.
Qed.

Lemma length_column (A : matrix R) (j : nat) : length (column j A) = nrows A.
Proof. unfold column. apply length_map. Qed.

Lemma broadcast_dim_same (n : nat) : broadcast_dim n n = OK n.
Proof. unfold broadcast_dim. rewrite Nat.eqb_refl. reflexivity. Qed.

Lemma broadcast_dim_one_r (n : nat) : broadcast_dim n 1 = OK n.
Proof.
  unfold broadcast_dim. destruct (n =? 1) eqn:E; [|reflexivity].
  reflexivity.
Qed.

Lemma broadcast_dim_comm (a b : nat) : broadcast_dim a b = broadcast_dim b a.
Proof.
  unfold broadcast_dim. rewrite (Nat.eqb_sym b a).
  destruct (a =? b) eqn:E.
  - apply Nat.eqb_eq in E. congruence.
  - destruct (a =? 1) eqn:Ea, (b =? 1) eqn:Eb; try reflexivity.
    apply Nat.eqb_eq in Ea, Eb. apply Nat.eqb_neq in E. lia.
Qed.

Lemma nth_broadcast_row (op : R -> R -> R) (q a b : nat) (u v : list R) (j : nat) :
  j < q ->
  nth j (broadcast_row op q a b u v) szero =
  op (pick a j u szero) (pick b j v szero).
Proof. intros Hj. unfold broadcast_row. rewrite nth_map_seq by exact Hj. reflexivity. Qed.

Lemma length_broadcast_row (op : R -> R -> R) (q a b : nat) (u v : list R) :
  length (broadcast_row op q a b u v) = q.
Proof. unfold broadcast_row. rewrite length_map, length_seq. reflexivity. Qed.

Lemma map_nth_rows {B : Type} (F : list R -> B) (l : list (list R)) :
  map (fun i => F (nth i l [])) (seq 0 (length l)) = map F l.
Proof.
  rewrite <- (map_map (fun i => nth i l []) F), map_nth_seq. reflexivity.
Qed.

Lemma map_pick_rows {B : Type} (F : list R -> B) (l : list (list R)) :
  map (fun i => F (pick (length l) i l [])) (seq 0 (length l)) = map F l.
Proof.
  transitivity (map F (map (fun i => nth i l []) (seq 0 (length l)))).
  - rewrite map_map. apply map_ext_in. intros i Hi. apply in_seq in Hi.
    rewrite pick_lt by lia. reflexivity.
  - rewrite map_nth_seq. reflexivity.
Qed.

Lemma Linear_call_eq (A : matrix R) (b : list R) X :
  call (Linear A b) X =
  if ncols X =? nrows A then
    q <- broadcast_dim (ncols A) (length b) ;;
    OK {| ncols := q; rows := map (linear_row A b q) (rows X) |}
  else Error DimensionMismatch.
Proof.
  cbn [call]. unfold tf_matmul.
  destruct (ncols X =? nrows A); [|reflexivity].
  cbn [bind]. unfold tf_add, broadcast_op.
  cbn [nrows rows ncols expand_vector length].
  rewrite length_map, broadcast_dim_one_r. cbn [bind].
  destruct (broadcast_dim (ncols A) (length b)) as [q|e]; [|reflexivity].
  cbn [bind]. f_equal. f_equal.
  rewrite <- (map_pick_rows (linear_row A b q) (rows X)).
  apply map_ext_in. intros i Hi. apply in_seq in Hi.
  unfold linear_row. f_equal.
  rewrite !pick_lt by (try rewrite length_map; lia).
  rewrite nth_map_lt with (d' := []) by lia. reflexivity.
Qed.

Lemma linear_row_entry (A : matrix R) (b : list R) (x : list R) (j : nat) :
  length x = nrows A -> length b = ncols A -> j < ncols A ->
  nth j (linear_row A b (ncols A) x) szero =
  sadd (sigma (nrows A) (fun k => smul (nth k x szero) (entry A k j)))
       (nth j b szero).
Proof.
  intros Hx Hb Hj. unfold linear_row.
  rewrite nth_broadcast_row by exact Hj.
  rewrite !pick_lt by lia.
  rewrite nth_map_seq by exact Hj. cbn [Nat.add].
  rewrite (dot_sigma x (column j A) (nrows A) Hx (length_column A j)).
  f_equal. apply sigma_ext. intros k Hk.
  rewrite column_nth by exact Hk. reflexivity.
Qed.

(** ** Stitching a partition back *)

Lemma length_apply_writes (w : list (nat * list R)) (init : list (list R)) :
  length (apply_writes w init) = length init.
Proof.
  unfold apply_writes. revert init.
  induction w as [|p w IH]; intros init; cbn; [reflexivity|].
  rewrite IH. apply length_list_update.
Qed.

Lemma apply_writes_untouched (w : list (nat * list R)) (init : list (list R))
  (i : nat) (d : list R) :
  ~ In i (map fst w) -> nth i (apply_writes w init) d = nth i init d.
Proof.
  unfold apply_writes. revert init.
  induction w as [|p w IH]; intros init Hi; cbn in *; [reflexivity|].
  rewrite IH by tauto. apply nth_list_update_neq. tauto.
Qed.

Lemma apply_writes_nth (w : list (nat * list R)) (init : list (list R))
  (i : nat) (r d : list R) :
  NoDup (map fst w) -> In (i, r) w -> i < length init ->
  nth i (apply_writes w init) d = r.
Proof.
  revert init. induction w as [|p w IH]; intros init Hnd Hin Hi; cbn in *;
    [contradiction|].
  inversion Hnd as [|? ? Hp Hw]; subst.
  destruct Hin as [Hin|Hin].
  - subst p. cbn in *.
    change (nth i (apply_writes w (list_update i r init)) d = r).
    rewrite apply_writes_untouched by exact Hp.
    apply nth_list_update_eq. exact Hi.
  - change (nth i (apply_writes w (list_update (fst p) (snd p) init)) d = r).
    apply IH; [exact Hw | exact Hin |].
    rewrite length_list_update. exact Hi.
Qed.

Lemma max_index_succ_lt (w : list (nat * list R)) (p : nat * list R) :
  In p w -> fst p < max_index_succ w.
Proof.
  induction w as [|a w IH]; [contradiction|].
  change (max_index_succ (a :: w)) with (Nat.max (S (fst a)) (max_index_succ w)).
  intros [Hp|Hp]; [subst a; lia | specialize (IH Hp); lia].
Qed.

Lemma max_index_succ_le (w : list (nat * list R)) (n : nat) :
  (forall p, In p w -> fst p < n) -> max_index_succ w <= n.
Proof.
  induction w as [|a w IH]; intros Hn; [cbn; lia|].
  change (max_index_succ (a :: w)) with (Nat.max (S (fst a)) (max_index_succ w)).
  assert (fst a < n) by (apply Hn; left; reflexivity).
  assert (max_index_succ w <= n) by (apply IH; intros p Hp; apply Hn; right; exact Hp).
  lia.
Qed.

Lemma map_fst_stitch_writes (indices : list (list nat)) (data : list (matrix R)) :
  length indices = length data ->
  (forall p, In p (combine indices data) -> length (fst p) = nrows (snd p)) ->
  map fst (stitch_writes indices data) = concat indices.
Proof.
  unfold stitch_writes.
  revert data. induction indices as [|ix indices IH]; intros [|d data] Hl Hp;
    cbn in *; try lia; try reflexivity.
  rewrite map_app, IH; [| lia | intros p Hin; apply Hp; right; exact Hin].
  rewrite map_fst_combine_eq; [reflexivity|].
  apply (Hp (ix, d)). left. reflexivity.
Qed.

Lemma In_stitch_writes (indices : list (list nat)) (data : list (matrix R))
  (g j : nat) :
  g < length indices -> g < length data ->
  j < length (nth g indices []) ->
  j < nrows (nth g data empty_matrix) ->
  In (nth j (nth g indices []) 0, nth j (rows (nth g data empty_matrix)) [])
     (stitch_writes indices data).
Proof.
  intros Hg1 Hg2 Hj1 Hj2. unfold stitch_writes. apply in_concat.
  exists (combine (nth g indices []) (rows (nth g data empty_matrix))). split.
  - apply (in_map (fun p => combine (fst p) (rows (snd p)))
                  (combine indices data)
                  (nth g indices [], nth g data empty_matrix)).
    apply nth_combine_In; assumption.
  - apply nth_combine_In; assumption.
Qed.

Lemma NoDup_concat_select (idx : list nat) (ind : list Z) (gs : list nat) :
  NoDup gs -> NoDup idx ->
  NoDup (concat (map (fun g => select (Z.of_nat g) idx ind) gs)).
Proof.
  intros Hgs Hidx. induction gs as [|g gs IH]; cbn; [constructor|].
  inversion Hgs as [|? ? Hg Hgs']; subst.
  apply NoDup_app.
  - apply select_NoDup. exact Hidx.
  - apply IH. exact Hgs'.
  - intros a Ha Hin. apply in_concat in Hin. destruct Hin as (l & Hl & Hal).
    apply in_map_iff in Hl. destruct Hl as (g' & El & Hg'). subst l.
    assert (E : Z.of_nat g = Z.of_nat g')
      by exact (select_label_unique _ _ idx ind a Hidx Ha Hal).
    apply Nat2Z.inj in E. subst g'. contradiction.
Qed.

Lemma stitch_inv (indices : list (list nat)) (data : list (matrix R)) Y :
  tf_dynamic_stitch indices data = OK Y ->
  data <> [] /\
  length indices = length data /\
  (forall p, In p (combine indices data) ->
     length (fst p) = nrows (snd p) /\ ncols (snd p) = ncols Y) /\
  rows Y = apply_writes (stitch_writes indices data)
             (repeat (repeat szero (ncols Y))
                     (max_index_succ (stitch_writes indices data))).
Proof.
  unfold tf_dynamic_stitch. destruct data as [|d0 rest]; [discriminate|].
  destruct (length indices =? length (d0 :: rest)) eqn:El; cbn [negb];
    [|discriminate].
  destruct (forallb _ _) eqn:Ef; [|discriminate].
  intros HY. injection HY as <-. cbn [ncols rows].
  apply Nat.eqb_eq in El. rewrite forallb_forall in Ef.
  split; [discriminate|]. split; [exact El|]. split; [|reflexivity].
  intros p Hp. specialize (Ef p Hp). apply andb_prop in Ef.
  destruct Ef as [E1 E2]. apply Nat.eqb_eq in E1, E2. split; assumption.
Qed.

Lemma stitch_ok (indices : list (list nat)) (data : list (matrix R)) (Q : nat) :
  data <> [] -> length indices = length data ->
  (forall p, In p (combine indices data) ->
     length (fst p) = nrows (snd p) /\ ncols (snd p) = Q) ->
  tf_dynamic_stitch indices data =
  OK {| ncols := Q;
        rows := apply_writes (stitch_writes indices data)
                  (repeat (repeat szero Q)
                          (max_index_succ (stitch_writes indices data))) |}.
Proof.
  intros Hne Hl Hp. unfold tf_dynamic_stitch.
  destruct data as [|d0 rest]; [contradiction|].
  rewrite (proj2 (Nat.eqb_eq _ _) Hl). cbn [negb].
  assert (HQ : ncols d0 = Q).
  { destruct indices as [|ix indices]; [discriminate|].
    apply (Hp (ix, d0)). left. reflexivity. }
  rewrite HQ.
  replace (forallb _ _) with true; [reflexivity|].
  symmetry. apply forallb_forall. intros p Hin.
  destruct (Hp p Hin) as [E1 E2]. rewrite E1, E2, !Nat.eqb_refl. reflexivity.
Qed.

Lemma stitch_partition_writes (K N : nat) (ind : list Z)
  (results : list (matrix R)) :
  length ind = N ->
  Forall (fun p => label_ok K p = true) ind ->
  length results = K ->
  (forall g, g < K ->
     nrows (nth g results empty_matrix) =
     length (select (Z.of_nat g) (seq 0 N) ind)) ->
  let w := stitch_writes
             (map (fun g => select (Z.of_nat g) (seq 0 N) ind) (seq 0 K))
             results in
  NoDup (map fst w) /\
  max_index_succ w = N /\
  forall i, i < N ->
    In (i, nth (rank (nth i ind 0%Z) ind i)
               (rows (nth (Z.to_nat (nth i ind 0%Z)) results empty_matrix)) [])
       w.
Proof.
  intros Hind Hlab Hres Hrows w.
  set (parts := map (fun g => select (Z.of_nat g) (seq 0 N) ind) (seq 0 K)) in *.
  assert (Hparts : length parts = K)
    by (unfold parts; rewrite length_map, length_seq; reflexivity).
  assert (Hnth : forall g, g < K ->
            nth g parts [] = select (Z.of_nat g) (seq 0 N) ind).
  { intros g Hg. unfold parts. rewrite nth_map_seq by exact Hg. reflexivity. }
  assert (Hfst : map fst w = concat parts).
  { apply map_fst_stitch_writes; [lia|].
    intros p Hp.
    destruct (In_combine_nth _ _ _ [] empty_matrix Hp) as (g & Hg1 & Hg2 & ->).
    cbn [fst snd]. rewrite Hnth by lia. symmetry. apply Hrows. lia. }
  assert (Hin : forall i, i < N ->
            In (i, nth (rank (nth i ind 0%Z) ind i)
                       (rows (nth (Z.to_nat (nth i ind 0%Z)) results empty_matrix)) [])
               w).
  { intros i Hi.
    assert (Hl : label_ok K (nth i ind 0%Z) = true).
    { apply (Forall_nth_lt _ _ _ _ Hlab). lia. }
    unfold label_ok in Hl. apply andb_prop in Hl. destruct Hl as [Hl1 Hl2].
    apply Z.leb_le in Hl1. apply Z.ltb_lt in Hl2.
    set (l := nth i ind 0%Z) in *. set (g := Z.to_nat l).
    assert (Hg : g < K) by (unfold g; lia).
    assert (Egl : Z.of_nat g = l) by (unfold g; lia).
    destruct (select_rank l (seq 0 N) ind i 0) as [Hr1 Hr2];
      [rewrite length_seq; exact Hi | rewrite length_seq; lia | reflexivity |].
    rewrite seq_nth in Hr2 by exact Hi. cbn in Hr2.
    pose proof (In_stitch_writes parts results g (rank l ind i)) as HI.
    rewrite Hnth, Egl in HI by exact Hg. rewrite Hr2 in HI.
    apply HI; try lia.
    rewrite Hrows, Egl by exact Hg. exact Hr1. }
  split; [|split].
  - rewrite Hfst. unfold parts. apply NoDup_concat_select; apply seq_NoDup.
  - assert (Hle : max_index_succ w <= N).
    { apply max_index_succ_le. intros p Hp.
      assert (Hf : In (fst p) (map fst w)) by (apply in_map; exact Hp).
      rewrite Hfst in Hf. apply in_concat in Hf. destruct Hf as (l & Hl & Hpl).
      unfold parts in Hl. apply in_map_iff in Hl. destruct Hl as (g & <- & _).
      apply select_incl in Hpl. apply in_seq in Hpl. lia. }
    destruct N as [|N']; [lia|].
    pose proof (max_index_succ_lt _ _ (Hin N' (Nat.lt_succ_diag_r N'))) as Hlt.
    cbn [fst] in Hlt. lia.
  - exact Hin.
Qed.

(** ** The parts of a switched evaluation *)

Lemma nrows_transpose X : nrows (tf_transpose X) = ncols X.
Proof. unfold nrows, tf_transpose. cbn [rows]. rewrite length_map, length_seq. reflexivity. Qed.

Lemma gather_transpose X (j : nat) :
  j < ncols X ->
  tf_gather_row (tf_transpose X) (Z.of_nat j) = OK (column j X).
Proof.
  intros Hj. unfold tf_gather_row. rewrite nrows_transpose.
  replace ((0 <=? Z.of_nat j)%Z && (Z.of_nat j <? Z.of_nat (ncols X))%Z) with true
    by (symmetry; apply andb_true_intro; split;
        [apply Z.leb_le | apply Z.ltb_lt]; lia).
  rewrite Nat2Z.id. unfold tf_transpose. cbn [rows].
  rewrite nth_map_seq by exact Hj. reflexivity.
Qed.

Lemma switch_labels_eq X :
  switch_labels X =
  if ncols X =? 0 then Error IndexOutOfRange else OK (labels X).
Proof.
  unfold switch_labels. destruct (ncols X) as [|c] eqn:Ec.
  - unfold tf_gather_row. reflexivity.
  - replace (Z.of_nat (S c) - 1)%Z with (Z.of_nat c) by lia.
    rewrite gather_transpose by lia. cbn [bind Nat.eqb].
    unfold tf_cast_int32, labels, column, row_label. rewrite map_map, Ec.
    replace (S c - 1) with c by lia. reflexivity.
Qed.

Lemma switch_features_eq X : switch_features X = OK (features X).
Proof.
  unfold switch_features, tf_gather_rows, tf_range.
  replace (Z.to_nat (Z.of_nat (ncols X) - 1 - 0)) with (ncols X - 1) by lia.
  change (Z.to_nat 0) with 0.
  rewrite (mapM_ok _ (fun j => column j X)).
  2:{ intros j Hj. apply in_seq in Hj. apply gather_transpose. lia. }
  cbn [bind]. f_equal. unfold tf_transpose, features, nrows. cbn [rows ncols].
  rewrite !length_map, !length_seq. f_equal.
  rewrite <- (map_nth_rows (row_features (ncols X)) (rows X)).
  apply map_ext_in. intros i Hi. apply in_seq in Hi.
  unfold column at 1. cbn [rows]. rewrite map_map. unfold row_features.
  apply map_ext_in. intros j _.
  apply (column_nth X j i). unfold nrows. lia.
Qed.

Lemma length_labels X : length (labels X) = nrows X.
Proof. unfold labels. apply length_map. Qed.

Lemma nrows_features X : nrows (features X) = nrows X.
Proof. unfold nrows, features. cbn [rows]. apply length_map. Qed.

Lemma partition_ok {A : Type} (data : list A) (ind : list Z) (K : nat) :
  0 < K -> length data = length ind ->
  Forall (fun p => label_ok K p = true) ind ->
  tf_dynamic_partition data ind K =
  OK (map (fun g => select (Z.of_nat g) data ind) (seq 0 K)).
Proof.
  intros HK Hl Hlab. unfold tf_dynamic_partition.
  rewrite (proj2 (Nat.eqb_neq K 0)) by lia.
  rewrite (proj2 (Nat.eqb_eq _ _) Hl). cbn [negb].
  rewrite (proj2 (forallb_forall _ _)); [reflexivity|].
  rewrite Forall_forall in Hlab. exact Hlab.
Qed.

Lemma partition_inv {A : Type} (data : list A) (ind : list Z) (K : nat)
  (parts : list (list A)) :
  tf_dynamic_partition data ind K = OK parts ->
  0 < K /\ length data = length ind /\
  Forall (fun p => label_ok K p = true) ind /\
  parts = map (fun g => select (Z.of_nat g) data ind) (seq 0 K).
Proof.
  unfold tf_dynamic_partition.
  destruct (K =? 0) eqn:EK; [discriminate|].
  destruct (length data =? length ind) eqn:El; cbn [negb]; [|discriminate].
  destruct (forallb (label_ok K) ind) eqn:Ef; [|discriminate].
  intros Hp. injection Hp as <-.
  apply Nat.eqb_neq in EK. apply Nat.eqb_eq in El.
  rewrite forallb_forall in Ef.
  repeat split; try lia. apply Forall_forall. exact Ef.
Qed.

Lemma wf_group (g : nat) X : wf_matrix (group g X).
Proof.
  unfold wf_matrix, group. cbn [rows ncols]. apply Forall_forall.
  intros r Hr. apply select_incl in Hr. unfold features in Hr. cbn [rows] in Hr.
  apply in_map_iff in Hr. destruct Hr as (x & <- & _).
  unfold row_features. rewrite length_map, length_seq. reflexivity.
Qed.

Lemma nrows_group (g : nat) X :
  nrows (group g X) = length (select (Z.of_nat g) (seq 0 (nrows X)) (labels X)).
Proof.
  unfold nrows at 1, group. cbn [rows]. apply length_select.
  rewrite length_seq. apply nrows_features.
Qed.

Lemma label_ok_range (K : nat) (l : Z) :
  label_ok K l = true -> Z.to_nat l < K /\ Z.of_nat (Z.to_nat l) = l.
Proof.
  unfold label_ok. intros Hl. apply andb_prop in Hl. destruct Hl as [H1 H2].
  apply Z.leb_le in H1. apply Z.ltb_lt in H2. lia.
Qed.

(** Row i of a switched batch sits in the group of its label, at the
    position given by its rank: the partition keeps the order of the rows. *)
Lemma group_rank (K : nat) X (i : nat) :
  i < nrows X -> label_ok K (nth i (labels X) 0%Z) = true ->
  rank (nth i (labels X) 0%Z) (labels X) i
    < nrows (group (Z.to_nat (nth i (labels X) 0%Z)) X) /\
  nth (rank (nth i (labels X) 0%Z) (labels X) i)
      (rows (group (Z.to_nat (nth i (labels X) 0%Z)) X)) [] =
  row_features (ncols X) (nth i (rows X) []).
Proof.
  intros Hi Hl. destruct (label_ok_range K _ Hl) as [_ El].
  unfold nrows, group. cbn [rows]. rewrite El.
  destruct (select_rank (nth i (labels X) 0%Z) (rows (features X)) (labels X) i [])
    as [H1 H2].
  - fold (nrows (features X)). rewrite nrows_features. exact Hi.
  - fold (nrows (features X)). rewrite nrows_features, length_labels. reflexivity.
  - reflexivity.
  - split; [exact H1|]. rewrite H2. unfold features. cbn [rows].
    apply nth_map_lt. exact Hi.
Qed.

Lemma Switched_call_eq (ms : list (MeanFunction R)) X :
  call (SwitchedMeanFunction ms) X =
  if ncols X =? 0 then Error IndexOutOfRange
  else
    x_list <- partition_rows (features X) (labels X) (length ms) ;;
    results <- zipM call ms x_list ;;
    partitions <- tf_dynamic_partition (seq 0 (nrows X)) (labels X) (length ms) ;;
    tf_dynamic_stitch partitions results.
Proof.
  cbn [call]. rewrite switch_labels_eq, switch_features_eq.
  destruct (ncols X =? 0); [reflexivity|]. cbn [bind].
  unfold tf_range. rewrite length_labels.
  replace (Z.to_nat (Z.of_nat (nrows X) - 0)) with (nrows X) by lia.
  reflexivity.
Qed.

Lemma partition_rows_groups (K : nat) X :
  0 < K -> Forall (fun p => label_ok K p = true) (labels X) ->
  partition_rows (features X) (labels X) K =
  OK (map (fun g => group g X) (seq 0 K)).
Proof.
  intros HK Hlab. unfold partition_rows. rewrite partition_ok; try assumption.
  - cbn [bind]. rewrite map_map. reflexivity.
  - fold (nrows (features X)). rewrite nrows_features, length_labels. reflexivity.
Qed.

Lemma Switched_call_ok (ms : list (MeanFunction R)) X
  (results : list (matrix R)) (Q : nat) :
  0 < ncols X -> 0 < length ms ->
  Forall (fun p => label_ok (length ms) p = true) (labels X) ->
  length results = length ms ->
  (forall g, g < length ms ->
     call (nth g ms (Zero 0)) (group g X) = OK (nth g results empty_matrix) /\
     ncols (nth g results empty_matrix) = Q /\
     nrows (nth g results empty_matrix) = nrows (group g X)) ->
  exists Y,
    call (SwitchedMeanFunction ms) X = OK Y /\
    ncols Y = Q /\ nrows Y = nrows X /\
    forall i, i < nrows X ->
      nth i (rows Y) [] =
      nth (rank (nth i (labels X) 0%Z) (labels X) i)
          (rows (nth (Z.to_nat (nth i (labels X) 0%Z)) results empty_matrix)) [].
Proof.
  intros Hc HK Hlab Hres Hg.
  set (K := length ms) in *.
  set (parts := map (fun g => select (Z.of_nat g) (seq 0 (nrows X)) (labels X))
                    (seq 0 K)).
  assert (Hrows : forall g, g < K ->
            nrows (nth g results empty_matrix) =
            length (select (Z.of_nat g) (seq 0 (nrows X)) (labels X))).
  { intros g HgK. destruct (Hg g HgK) as (_ & _ & Hn).
    rewrite Hn. apply nrows_group. }
  destruct (stitch_partition_writes K (nrows X) (labels X) results
              (length_labels X) Hlab Hres Hrows) as (Hnd & Hmax & Hin).
  fold parts in Hnd, Hmax, Hin.
  assert (Hstitch : tf_dynamic_stitch parts results =
            OK {| ncols := Q;
                  rows := apply_writes (stitch_writes parts results)
                            (repeat (repeat szero Q) (nrows X)) |}).
  { rewrite (stitch_ok parts results Q); [rewrite Hmax; reflexivity | | |].
    - intros ->. cbn in Hres. lia.
    - unfold parts. rewrite length_map, length_seq. lia.
    - intros p Hp.
      destruct (In_combine_nth _ _ _ [] empty_matrix Hp) as (g & Hg1 & Hg2 & ->).
      cbn [fst snd]. rewrite Hres in Hg2. unfold parts.
      rewrite nth_map_seq by exact Hg2. cbn [Nat.add].
      rewrite Hrows by exact Hg2. split; [reflexivity|]. apply (Hg g Hg2). }
  eexists. split.
  - rewrite Switched_call_eq. rewrite (proj2 (Nat.eqb_neq _ 0)) by lia.
    fold K. rewrite partition_rows_groups by assumption. cbn [bind].
    rewrite (zipM_intro call ms _ results (Zero 0) empty_matrix empty_matrix).
    + cbn [bind]. rewrite partition_ok; try assumption.
      * cbn [bind]. exact Hstitch.
      * rewrite length_seq, length_labels. reflexivity.
    + rewrite length_map, length_seq. reflexivity.
    + exact Hres.
    + intros g HgK. rewrite nth_map_lt with (d' := 0)
        by (rewrite length_seq; exact HgK).
      rewrite seq_nth by exact HgK. apply (Hg g HgK).
  - cbn [ncols rows]. split; [reflexivity|]. split.
    + unfold nrows at 1. cbn [rows].
      rewrite length_apply_writes, repeat_length. reflexivity.
    + intros i Hi. apply apply_writes_nth.
      * exact Hnd.
      * apply Hin. exact Hi.
      * rewrite repeat_length. exact Hi.
Qed.

Lemma Switched_call_inv (ms : list (MeanFunction R)) X Y :
  call (SwitchedMeanFunction ms) X = OK Y ->
  0 < ncols X /\ 0 < length ms /\
  Forall (fun p => label_ok (length ms) p = true) (labels X) /\
  exists results,
    length results = length ms /\
    forall g, g < length ms ->
      call (nth g ms (Zero 0)) (group g X) = OK (nth g results empty_matrix) /\
      ncols (nth g results empty_matrix) = ncols Y /\
      nrows (nth g results empty_matrix) = nrows (group g X).
Proof.
  rewrite Switched_call_eq. destruct (ncols X =? 0) eqn:Ec; [discriminate|].
  apply Nat.eqb_neq in Ec. intros HY.
  apply bind_ok in HY. destruct HY as (x_list & Hx & HY).
  apply bind_ok in HY. destruct HY as (results & Hz & HY).
  apply bind_ok in HY. destruct HY as (parts & Hp & HY).
  apply partition_inv in Hp. destruct Hp as (HK & _ & Hlab & ->).
  rewrite partition_rows_groups in Hx by assumption. injection Hx as <-.
  destruct (zipM_inv call ms _ results (Zero 0) empty_matrix empty_matrix Hz)
    as [Hlen Hcall].
  { rewrite length_map, length_seq. reflexivity. }
  destruct (stitch_inv _ _ _ HY) as (_ & _ & Hchk & _).
  split; [lia|]. split; [exact HK|]. split; [exact Hlab|].
  exists results. split; [exact Hlen|].
  intros g Hg. specialize (Hcall g Hg).
  rewrite nth_map_lt with (d' := 0) in Hcall by (rewrite length_seq; exact Hg).
  rewrite seq_nth in Hcall by exact Hg. cbn [Nat.add] in Hcall.
  split; [exact Hcall|].
  destruct (Hchk (nth g (map (fun g0 => select (Z.of_nat g0) (seq 0 (nrows X)) (labels X))
                             (seq 0 (length ms))) [],
                  nth g results empty_matrix)) as [H1 H2].
  { apply nth_combine_In; [rewrite length_map, length_seq|]; lia. }
  cbn [fst snd] in H1, H2. rewrite nth_map_seq in H1 by exact Hg.
  cbn [Nat.add] in H1. split; [exact H2|].
  rewrite nrows_group. symmetry. exact H1.
Qed.

(** ** Closed forms of Constant and Zero *)

Lemma Constant_call_eq (c : list R) X :
  call (Constant c) X = OK {| ncols := length c; rows := repeat c (nrows X) |}.
Proof.
  cbn. unfold tf_tile. cbn. rewrite Nat.mul_1_r, app_nil_r.
  rewrite concat_repeat_singleton. reflexivity.
Qed.

Lemma Zero_call_eq (q : nat) X :
  call (Zero q) X = OK {| ncols := q; rows := repeat (repeat szero q) (nrows X) |}.
Proof. reflexivity. Qed.

(** ** Broadcasting *)

Lemma broadcast_op_rows_eq (op : R -> R -> R) (a b : matrix R) :
  nrows a = nrows b ->
  broadcast_op op a b =
  q <- broadcast_dim (ncols a) (ncols b) ;;
  OK {| ncols := q;
        rows := map (fun i => broadcast_row op q (ncols a) (ncols b)
                                (nth i (rows a) []) (nth i (rows b) []))
                    (seq 0 (nrows a)) |}.
Proof.
  intros Hn. unfold broadcast_op. rewrite <- Hn, broadcast_dim_same. cbn [bind].
  destruct (broadcast_dim (ncols a) (ncols b)) as [q|e]; [|reflexivity].
  cbn [bind]. f_equal. f_equal. apply map_ext_in. intros i Hi.
  apply in_seq in Hi. rewrite !pick_lt by lia. reflexivity.
Qed.

Lemma broadcast_op_wf (op : R -> R -> R) (a b : matrix R) Y :
  broadcast_op op a b = OK Y -> wf_matrix Y.
Proof.
  unfold broadcast_op. intros HY.
  apply bind_ok in HY. destruct HY as (n & _ & HY).
  apply bind_ok in HY. destruct HY as (q & _ & HY).
  injection HY as <-. unfold wf_matrix. cbn [rows ncols].
  apply Forall_map, Forall_forall. intros i _. apply length_broadcast_row.
Qed.

Lemma broadcast_op_comm (op : R -> R -> R) (a b : matrix R) :
  (forall x y, op x y = op y x) ->
  broadcast_op op a b = broadcast_op op b a.
Proof.
  intros Hop. unfold broadcast_op.
  rewrite (broadcast_dim_comm (nrows b)), (broadcast_dim_comm (ncols b)).
  destruct (broadcast_dim (nrows a) (nrows b)) as [n|e]; [|reflexivity].
  cbn [bind].
  destruct (broadcast_dim (ncols a) (ncols b)) as [q|e]; [|reflexivity].
  cbn [bind]. f_equal. f_equal. apply map_ext. intros i.
  unfold broadcast_row. apply map_ext. intros j. apply Hop.
Qed.

(** ** Row counts and well-formedness of results *)

Lemma call_nrows m : forall X Y, call m X = OK Y -> nrows Y = nrows X.
Proof.
  induction m as [A b|d|c|q|ms IH|f1 f2 IH1 IH2|f1 f2 IH1 IH2]
    using MeanFunction_ind; intros X Y HY.
  - rewrite Linear_call_eq in HY. destruct (ncols X =? nrows A); [|discriminate].
    apply bind_ok in HY. destruct HY as (q & _ & HY). injection HY as <-.
    unfold nrows. cbn [rows]. apply length_map.
  - injection HY as <-. reflexivity.
  - rewrite Constant_call_eq in HY. injection HY as <-.
    unfold nrows. cbn [rows]. apply repeat_length.
  - rewrite Zero_call_eq in HY. injection HY as <-.
    unfold nrows. cbn [rows]. apply repeat_length.
  - destruct (Switched_call_inv ms X Y HY) as (Hc & HK & Hlab & results & Hlen & Hres).
    destruct (Switched_call_ok ms X results (ncols Y) Hc HK Hlab Hlen Hres)
      as (Y' & HY' & _ & Hn & _).
    rewrite HY in HY'. injection HY' as <-. exact Hn.
  - cbn [call] in HY.
    apply bind_ok in HY. destruct HY as (a & Ha & HY).
    apply bind_ok in HY. destruct HY as (b & Hb & HY).
    unfold tf_add in HY. rewrite broadcast_op_rows_eq in HY
      by (rewrite (IH1 _ _ Ha), (IH2 _ _ Hb); reflexivity).
    apply bind_ok in HY. destruct HY as (q & _ & HY). injection HY as <-.
    unfold nrows at 1. cbn [rows]. rewrite length_map, length_seq.
    apply (IH1 _ _ Ha).
  - cbn [call] in HY.
    apply bind_ok in HY. destruct HY as (a & Ha & HY).
    apply bind_ok in HY. destruct HY as (b & Hb & HY).
    unfold tf_multiply in HY. rewrite broadcast_op_rows_eq in HY
      by (rewrite (IH1 _ _ Ha), (IH2 _ _ Hb); reflexivity).
    apply bind_ok in HY. destruct HY as (q & _ & HY). injection HY as <-.
    unfold nrows at 1. cbn [rows]. rewrite length_map, length_seq.
    apply (IH1 _ _ Ha).
Qed.

Lemma Switched_call_exists (ms : list (MeanFunction R)) X (Q : nat) :
  0 < ncols X -> 0 < length ms ->
  Forall (fun p => label_ok (length ms) p = true) (labels X) ->
  (forall g, g < length ms ->
     exists Zg, call (nth g ms (Zero 0)) (group g X) = OK Zg /\ ncols Zg = Q) ->
  exists Y results,
    call (SwitchedMeanFunction ms) X = OK Y /\
    ncols Y = Q /\ nrows Y = nrows X /\
    length results = length ms /\
    (forall g, g < length ms ->
       call (nth g ms (Zero 0)) (group g X) = OK (nth g results empty_matrix)) /\
    forall i, i < nrows X ->
      nth i (rows Y) [] =
      nth (rank (nth i (labels X) 0%Z) (labels X) i)
          (rows (nth (Z.to_nat (nth i (labels X) 0%Z)) results empty_matrix)) [].
Proof.
  intros Hc HK Hlab Hex.
  destruct (zipM_build call ms (map (fun g => group g X) (seq 0 (length ms)))
              (Zero 0) empty_matrix) as (results & Hz).
  { rewrite length_map, length_seq. reflexivity. }
  { intros g Hg. rewrite nth_map_lt with (d' := 0)
      by (rewrite length_seq; exact Hg).
    rewrite seq_nth by exact Hg. destruct (Hex g Hg) as (Zg & HZ & _). eauto. }
  destruct (zipM_inv call ms _ results (Zero 0) empty_matrix empty_matrix Hz)
    as [Hlen Hcall].
  { rewrite length_map, length_seq. reflexivity. }
  assert (Hcall' : forall g, g < length ms ->
            call (nth g ms (Zero 0)) (group g X) = OK (nth g results empty_matrix)).
  { intros g Hg. specialize (Hcall g Hg).
    rewrite nth_map_lt with (d' := 0) in Hcall by (rewrite length_seq; exact Hg).
    rewrite seq_nth in Hcall by exact Hg. exact Hcall. }
  destruct (Switched_call_ok ms X results Q Hc HK Hlab Hlen) as (Y & HY & HQ & Hn & Hrow).
  { intros g Hg. split; [apply Hcall'; exact Hg|]. split.
    - destruct (Hex g Hg) as (Zg & HZ & HQ). rewrite Hcall' in HZ by exact Hg.
      injection HZ as <-. exact HQ.
    - apply (call_nrows _ _ _ (Hcall' g Hg)). }
  exists Y, results. repeat split; assumption.
Qed.

Lemma call_wf m : forall X Y, wf_matrix X -> call m X = OK Y -> wf_matrix Y.
Proof.
  induction m as [A b|d|c|q|ms IH|f1 f2 IH1 IH2|f1 f2 IH1 IH2]
    using MeanFunction_ind; intros X Y Hwf HY.
  - rewrite Linear_call_eq in HY. destruct (ncols X =? nrows A); [|discriminate].
    apply bind_ok in HY. destruct HY as (q & _ & HY). injection HY as <-.
    unfold wf_matrix. cbn [rows ncols]. apply Forall_map, Forall_forall.
    intros x _. apply length_broadcast_row.
  - injection HY as <-. exact Hwf.
  - rewrite Constant_call_eq in HY. injection HY as <-.
    unfold wf_matrix. cbn [rows ncols]. apply Forall_forall.
    intros r Hr. apply repeat_spec in Hr. subst r. reflexivity.
  - rewrite Zero_call_eq in HY. injection HY as <-.
    unfold wf_matrix. cbn [rows ncols]. apply Forall_forall.
    intros r Hr. apply repeat_spec in Hr. subst r. apply repeat_length.
  - destruct (Switched_call_inv ms X Y HY) as (Hc & HK & Hlab & results & Hlen & Hres).
    destruct (Switched_call_ok ms X results (ncols Y) Hc HK Hlab Hlen Hres)
      as (Y' & HY' & _ & Hn & Hrow).
    rewrite HY in HY'. injection HY' as <-.
    unfold wf_matrix. apply Forall_nth. intros i d Hi.
    rewrite (nth_indep _ d [] Hi). fold (nrows Y) in Hi. rewrite Hn in Hi.
    rewrite Hrow by exact Hi.
    assert (Hl : label_ok (length ms) (nth i (labels X) 0%Z) = true).
    { apply (Forall_nth_lt _ _ _ _ Hlab). rewrite length_labels. exact Hi. }
    destruct (label_ok_range _ _ Hl) as [Hg _].
    destruct (group_rank (length ms) X i Hi Hl) as [Hr _].
    destruct (Hres _ Hg) as (Hcall & HQ & Hnr).
    rewrite <- HQ. apply wf_row_length; [|rewrite Hnr; exact Hr].
    rewrite Forall_forall in IH.
    apply (IH (nth (Z.to_nat (nth i (labels X) 0%Z)) ms (Zero 0))
              (nth_In _ _ Hg) (group (Z.to_nat (nth i (labels X) 0%Z)) X)).
    + apply wf_group.
    + exact Hcall.
  - cbn [call] in HY.
    apply bind_ok in HY. destruct HY as (a & Ha & HY).
    apply bind_ok in HY. destruct HY as (b & Hb & HY).
    exact (broadcast_op_wf _ _ _ _ HY).
  - cbn [call] in HY.
    apply bind_ok in HY. destruct HY as (a & Ha & HY).
    apply bind_ok in HY. destruct HY as (b & Hb & HY).
    exact (broadcast_op_wf _ _ _ _ HY).
Qed.

(** ** Evaluation on a sub-batch *)

Lemma labels_sub_batch (K : nat) (X' X : matrix R) :
  sub_batch X' X ->
  Forall (fun p => label_ok K p = true) (labels X) ->
  Forall (fun p => label_ok K p = true) (labels X').
Proof.
  intros [Hc Hincl] Hlab. rewrite Forall_forall in *.
  intros l Hl. unfold labels in Hl. apply in_map_iff in Hl.
  destruct Hl as (r & <- & Hr). apply Hlab. unfold labels.
  rewrite Hc. apply in_map. apply Hincl. exact Hr.
Qed.

Lemma group_sub_batch (g : nat) (X' X : matrix R) :
  sub_batch X' X -> sub_batch (group g X') (group g X).
Proof.
  intros [Hc Hincl]. split.
  - unfold group. cbn [ncols]. rewrite Hc. reflexivity.
  - intros r Hr. unfold group, features, labels in *. cbn [rows] in *.
    rewrite Hc in Hr. apply In_select_map in Hr.
    destruct Hr as (x & Hx & Hg & Hr).
    apply In_select_map. exists x. split; [apply Hincl; exact Hx | auto].
Qed.

Lemma broadcast_op_sub_batch (op : R -> R -> R) (a b a' b' Y : matrix R)
  (i i' : nat) :
  nrows a = nrows b -> nrows a' = nrows b' ->
  ncols a' = ncols a -> ncols b' = ncols b ->
  broadcast_op op a b = OK Y ->
  exists Y',
    broadcast_op op a' b' = OK Y' /\ ncols Y' = ncols Y /\
    (i < nrows a -> i' < nrows a' ->
     nth i (rows a) [] = nth i' (rows a') [] ->
     nth i (rows b) [] = nth i' (rows b') [] ->
     nth i (rows Y) [] = nth i' (rows Y') []).
Proof.
  intros Hn Hn' Ha Hb HY.
  rewrite broadcast_op_rows_eq in HY by exact Hn.
  rewrite (broadcast_op_rows_eq op a' b') by exact Hn'.
  rewrite Ha, Hb.
  apply bind_ok in HY. destruct HY as (q & Hq & HY). injection HY as <-.
  rewrite Hq. cbn [bind]. eexists. split; [reflexivity|]. split; [reflexivity|].
  intros Hi Hi' Era Erb. cbn [rows].
  rewrite !nth_map_seq by assumption. cbn [Nat.add]. rewrite Era, Erb.
  reflexivity.
Qed.

Lemma call_sub_batch m :
  forall X Y, call m X = OK Y ->
  forall X', sub_batch X' X ->
  exists Y',
    call m X' = OK Y' /\ ncols Y' = ncols Y /\
    forall i i', i < nrows X -> i' < nrows X' ->
      nth i (rows X) [] = nth i' (rows X') [] ->
      nth i (rows Y) [] = nth i' (rows Y') [].
Proof.
  induction m as [A b|d|c|q|ms IH|f1 f2 IH1 IH2|f1 f2 IH1 IH2]
    using MeanFunction_ind; intros X Y HY X' Hsub.
  - destruct Hsub as [Hc _].
    rewrite Linear_call_eq in HY. rewrite Linear_call_eq, Hc.
    destruct (ncols X =? nrows A); [|discriminate].
    apply bind_ok in HY. destruct HY as (q & Hq & HY). injection HY as <-.
    rewrite Hq. cbn [bind]. eexists. split; [reflexivity|]. split; [reflexivity|].
    intros i i' Hi Hi' E. cbn [rows].
    rewrite (nth_map_lt _ (rows X) i [] []) by exact Hi.
    rewrite (nth_map_lt _ (rows X') i' [] []) by exact Hi'.
    rewrite E. reflexivity.
  - destruct Hsub as [Hc _]. injection HY as <-.
    exists X'. split; [reflexivity|]. split; [exact Hc|]. auto.
  - rewrite Constant_call_eq in HY. injection HY as <-.
    rewrite Constant_call_eq. eexists. split; [reflexivity|]. split; [reflexivity|].
    intros i i' Hi Hi' _. cbn [rows]. rewrite !nth_repeat_lt by assumption.
    reflexivity.
  - rewrite Zero_call_eq in HY. injection HY as <-.
    rewrite Zero_call_eq. eexists. split; [reflexivity|]. split; [reflexivity|].
    intros i i' Hi Hi' _. cbn [rows]. rewrite !nth_repeat_lt by assumption.
    reflexivity.
  - destruct (Switched_call_inv ms X Y HY) as (Hc & HK & Hlab & results & Hlen & Hres).
    destruct (Switched_call_ok ms X results (ncols Y) Hc HK Hlab Hlen Hres)
      as (Y0 & HY0 & _ & _ & Hrow).
    rewrite HY in HY0. injection HY0 as <-.
    pose proof (labels_sub_batch _ _ _ Hsub Hlab) as Hlab'.
    assert (Hc' : 0 < ncols X') by (destruct Hsub as [E _]; lia).
    rewrite Forall_forall in IH.
    assert (Hchild : forall g, g < length ms ->
              exists Zg,
                call (nth g ms (Zero 0)) (group g X') = OK Zg /\
                ncols Zg = ncols Y /\
                forall j j', j < nrows (group g X) -> j' < nrows (group g X') ->
                  nth j (rows (group g X)) [] = nth j' (rows (group g X')) [] ->
                  nth j (rows (nth g results empty_matrix)) [] = nth j' (rows Zg) []).
    { intros g Hg. destruct (Hres g Hg) as (Hcall & HQ & _).
      destruct (IH _ (nth_In ms (Zero 0) Hg) _ _ Hcall _ (group_sub_batch g _ _ Hsub))
        as (Zg & HZ & HZc & HZr).
      exists Zg. split; [exact HZ|]. split; [congruence | exact HZr]. }
    destruct (Switched_call_exists ms X' (ncols Y) Hc' HK Hlab')
      as (Y' & results' & HY' & HQ' & Hn' & Hlen' & Hcall' & Hrow').
    { intros g Hg. destruct (Hchild g Hg) as (Zg & HZ & HZc & _). eauto. }
    exists Y'. split; [exact HY'|]. split; [exact HQ'|].
    intros i i' Hi Hi' E.
    rewrite Hrow by exact Hi. rewrite Hrow' by exact Hi'.
    assert (El : nth i' (labels X') 0%Z = nth i (labels X) 0%Z).
    { unfold labels. destruct Hsub as [Ec _]. rewrite Ec.
      rewrite (nth_map_lt _ (rows X') i' 0%Z []) by exact Hi'.
      rewrite (nth_map_lt _ (rows X) i 0%Z []) by exact Hi.
      rewrite E. reflexivity. }
    rewrite El.
    assert (Hl : label_ok (length ms) (nth i (labels X) 0%Z) = true).
    { apply (Forall_nth_lt _ _ _ _ Hlab). rewrite length_labels. exact Hi. }
    destruct (label_ok_range _ _ Hl) as [Hg _].
    destruct (group_rank (length ms) X i Hi Hl) as [Hr1 Hr2].
    assert (Hl' : label_ok (length ms) (nth i' (labels X') 0%Z) = true)
      by (rewrite El; exact Hl).
    destruct (group_rank (length ms) X' i' Hi' Hl') as [Hr1' Hr2'].
    rewrite El in Hr1', Hr2'.
    destruct (Hchild _ Hg) as (Zg & HZ & _ & HZr).
    rewrite Hcall' in HZ by exact Hg. injection HZ as <-.
    apply HZr; try assumption.
    rewrite Hr2, Hr2'. destruct Hsub as [Ec _]. rewrite Ec, E. reflexivity.
  - cbn [call] in HY |- *.
    apply bind_ok in HY. destruct HY as (a & Ha & HY).
    apply bind_ok in HY. destruct HY as (b & Hb & HY).
    destruct (IH1 _ _ Ha _ Hsub) as (a' & Ha' & Hca & Hra).
    destruct (IH2 _ _ Hb _ Hsub) as (b' & Hb' & Hcb & Hrb).
    rewrite Ha', Hb'. cbn [bind].
    assert (Hn : nrows a = nrows b)
      by (rewrite (call_nrows _ _ _ Ha), (call_nrows _ _ _ Hb); reflexivity).
    assert (Hn' : nrows a' = nrows b')
      by (rewrite (call_nrows _ _ _ Ha'), (call_nrows _ _ _ Hb'); reflexivity).
    assert (Hex : forall i i', exists Y',
              tf_add a' b' = OK Y' /\ ncols Y' = ncols Y /\
              (i < nrows a -> i' < nrows a' ->
               nth i (rows a) [] = nth i' (rows a') [] ->
               nth i (rows b) [] = nth i' (rows b') [] ->
               nth i (rows Y) [] = nth i' (rows Y') []))
      by (intros i i'; exact (broadcast_op_sub_batch sadd a b a' b' Y i i'
                                Hn Hn' Hca Hcb HY)).
    destruct (Hex 0 0) as (Y' & HY' & HQ' & _).
    exists Y'. split; [exact HY'|]. split; [exact HQ'|].
    intros i i' Hi Hi' E.
    destruct (Hex i i') as (Y'' & HY'' & _ & Hr).
    rewrite HY' in HY''. injection HY'' as <-.
    apply Hr.
    + rewrite (call_nrows _ _ _ Ha). exact Hi.
    + rewrite (call_nrows _ _ _ Ha'). exact Hi'.
    + apply Hra; assumption.
    + apply Hrb; assumption.
  - cbn [call] in HY |- *.
    apply bind_ok in HY. destruct HY as (a & Ha & HY).
    apply bind_ok in HY. destruct HY as (b & Hb & HY).
    destruct (IH1 _ _ Ha _ Hsub) as (a' & Ha' & Hca & Hra).
    destruct (IH2 _ _ Hb _ Hsub) as (b' & Hb' & Hcb & Hrb).
    rewrite Ha', Hb'. cbn [bind].
    assert (Hn : nrows a = nrows b)
      by (rewrite (call_nrows _ _ _ Ha), (call_nrows _ _ _ Hb); reflexivity).
    assert (Hn' : nrows a' = nrows b')
      by (rewrite (call_nrows _ _ _ Ha'), (call_nrows _ _ _ Hb'); reflexivity).
    assert (Hex : forall i i', exists Y',
              tf_multiply a' b' = OK Y' /\ ncols Y' = ncols Y /\
              (i < nrows a -> i' < nrows a' ->
               nth i (rows a) [] = nth i' (rows a') [] ->
               nth i (rows b) [] = nth i' (rows b') [] ->
               nth i (rows Y) [] = nth i' (rows Y') []))
      by (intros i i'; exact (broadcast_op_sub_batch smul a b a' b' Y i i'
                                Hn Hn' Hca Hcb HY)).
    destruct (Hex 0 0) as (Y' & HY' & HQ' & _).
    exists Y'. split; [exact HY'|]. split; [exact HQ'|].
    intros i i' Hi Hi' E.
    destruct (Hex i i') as (Y'' & HY'' & _ & Hr).
    rewrite HY' in HY''. injection HY'' as <-.
    apply Hr.
    + rewrite (call_nrows _ _ _ Ha). exact Hi.
    + rewrite (call_nrows _ _ _ Ha'). exact Hi'.
    + apply Hra; assumption.
    + apply Hrb; assumption.
Qed.

Lemma call_single_row m X Y (i : nat) :
  call m X = OK Y -> i < nrows X ->
  call m (single_row (ncols X) (nth i (rows X) [])) =
  OK (single_row (ncols Y) (nth i (rows Y) [])).
Proof.
  intros HY Hi.
  assert (Hsub : sub_batch (single_row (ncols X) (nth i (rows X) [])) X).
  { split; [reflexivity|]. intros r [<-|[]]. apply nth_In. exact Hi. }
  destruct (call_sub_batch m X Y HY _ Hsub) as (Y' & HY' & Hc & Hr).
  pose proof (call_nrows _ _ _ HY') as Hn.
  specialize (Hr i 0 Hi (Nat.lt_0_succ 0) eq_refl).
  destruct Y' as [q rs]. unfold nrows in Hn. cbn in Hn, Hc, Hr.
  destruct rs as [|r [|r' rs]]; cbn in Hn; try lia.
  cbn in Hr. rewrite HY'. unfold single_row. congruence.
Qed.

Lemma row_features_firstn (D : nat) (r : list R) :
  length r = S D -> row_features (S D) r = firstn D r.
Proof.
  intros Hr. unfold row_features. cbn [Nat.sub]. rewrite Nat.sub_0_r.
  apply map_nth_firstn. lia.
Qed.

Lemma group_filter (g D : nat) X :
  ncols X = S D -> wf_matrix X ->
  rows (group g X) =
  map (firstn D)
      (filter (fun r => (cast_int32 (nth D r szero) =? Z.of_nat g)%Z) (rows X)).
Proof.
  intros Hc Hwf. unfold group, features, labels. cbn [rows].
  rewrite select_filter, Hc. unfold row_label. cbn [Nat.sub]. rewrite Nat.sub_0_r.
  apply map_ext_in. intros r Hr. apply filter_In in Hr. destruct Hr as [Hr _].
  apply row_features_firstn. unfold wf_matrix in Hwf.
  rewrite Forall_forall in Hwf. rewrite (Hwf r Hr). exact Hc.
Qed.

Lemma labels_last_column (D : nat) X :
  ncols X = S D -> labels X = map (fun r => cast_int32 (nth D r szero)) (rows X).
Proof.
  intros Hc. unfold labels, row_label. rewrite Hc. cbn [Nat.sub].
  rewrite Nat.sub_0_r. reflexivity.
Qed.

(** ** Linear *)

(** C2.  Linear on an N x D batch, with A of shape D x Q and b of length Q,
    returns the N x Q matrix whose entry (i, j) is the dot product of row i
    of X with column j of A, plus b[j], that is, row i is X[i].A + b.  When
    the column count of X differs from the row count of A the evaluation
    fails with the dimension mismatch of the matrix product. *)
Theorem Linear_call_spec (A : matrix R) (b : list R) X :
  (wf_matrix X -> ncols X = nrows A -> length b = ncols A ->
   exists Y,
     call (Linear A b) X = OK Y /\
     tf_shape Y = [nrows X; ncols A] /\
     wf_matrix Y /\
     (forall i, i < nrows X ->
        nth i (rows Y) [] = linear_row A b (ncols A) (nth i (rows X) [])) /\
     (forall i j, i < nrows X -> j < ncols A ->
        entry Y i j =
        sadd (sigma (ncols X) (fun k => smul (entry X i k) (entry A k j)))
             (nth j b szero))) /\
  (ncols X <> nrows A -> call (Linear A b) X = Error DimensionMismatch).
Proof.
  split.
  - intros Hwf HD Hb. rewrite Linear_call_eq.
    rewrite (proj2 (Nat.eqb_eq _ _) HD), Hb, broadcast_dim_same. cbn [bind].
    eexists. split; [reflexivity|].
    assert (Hrow : forall i, i < nrows X ->
              nth i (map (linear_row A b (ncols A)) (rows X)) [] =
              linear_row A b (ncols A) (nth i (rows X) [])).
    { intros i Hi. apply nth_map_lt. exact Hi. }
    repeat split.
    + unfold tf_shape, nrows. cbn [rows ncols]. rewrite length_map. reflexivity.
    + unfold wf_matrix. cbn [rows ncols]. apply Forall_map, Forall_forall.
      intros x _. apply length_broadcast_row.
    + exact Hrow.
    + intros i j Hi Hj. unfold entry at 1. cbn [rows]. rewrite Hrow by exact Hi.
      rewrite linear_row_entry; try assumption.
      * rewrite HD. reflexivity.
      * rewrite wf_row_length by assumption. exact HD.
  - intros HD. rewrite Linear_call_eq.
    rewrite (proj2 (Nat.eqb_neq _ _) HD). reflexivity.
Qed.

(** ** Identity *)

(** C6.  Identity returns its input batch itself, whatever the batch and
    whether or not input_dim was given: the result is the same for every
    input_dim, also for None, where reading A fails.  No matrix product is
    formed: on a batch whose width differs from D, the Linear with the
    parameters A = eye(D), b = zeros(D) fails in its matmul, and
    Identity(D) still returns the batch. *)
Theorem Identity_call_spec (input_dim : option nat) X :
  call (Identity input_dim) X = OK X /\
  (forall input_dim', call (Identity input_dim') X = call (Identity input_dim) X) /\
  (is_ok (get_A (Identity (R := R) None)) = false /\
   call (Identity None) X = OK X) /\
  (forall D, ncols X <> D ->
     call (Linear (tf_eye D) (tf_zeros_1d D)) X = Error DimensionMismatch /\
     call (Identity (Some D)) X = OK X).
Proof.
  split; [reflexivity|]. split; [reflexivity|]. split; [split; reflexivity|].
  intros D HD. split; [|reflexivity].
  rewrite Linear_call_eq.
  replace (nrows (tf_eye D)) with D
    by (unfold nrows, tf_eye; cbn [rows]; rewrite length_map, length_seq; reflexivity).
  rewrite (proj2 (Nat.eqb_neq _ _) HD). reflexivity.
Qed.

Lemma tf_eye_entry (d i j : nat) :
  i < d -> j < d ->
  entry (tf_eye d) i j = if i =? j then sone else szero.
Proof.
  intros Hi Hj. unfold entry, tf_eye. cbn [rows].
  rewrite nth_map_lt with (d' := 0) by (rewrite length_seq; exact Hi).
  rewrite nth_map_seq by exact Hj. rewrite seq_nth by exact Hi. reflexivity.
Qed.

Lemma tf_eye_wf (d : nat) : wf_matrix (tf_eye d).
Proof.
  unfold wf_matrix, tf_eye. cbn [rows ncols]. apply Forall_map, Forall_forall.
  intros i _. rewrite length_map, length_seq. reflexivity.
Qed.

(** C7.  Reading A or b of an Identity fails exactly when input_dim is
    unset, with the ValueError whose message names input_dim; with
    input_dim = D the read computes the D x D identity matrix for A and the
    zero vector of length D for b. *)
Theorem Identity_A_b_spec (input_dim : option nat) :
  (is_ok (get_A (Identity input_dim)) = false <-> input_dim = None) /\
  (is_ok (get_b (Identity input_dim)) = false <-> input_dim = None) /\
  (forall e, get_A (Identity input_dim) = Error e \/
             get_b (Identity input_dim) = Error e ->
             e = ValueError Identity_msg) /\
  index 0 "input_dim" Identity_msg = Some 3 /\
  (forall D, input_dim = Some D ->
     get_A (Identity input_dim) = OK (tf_eye D) /\
     get_b (Identity input_dim) = OK (repeat szero D) /\
     tf_shape (tf_eye D) = [D; D] /\
     wf_matrix (tf_eye D) /\
     (forall i j, i < D -> j < D ->
        entry (tf_eye D) i j = if i =? j then sone else szero)).
Proof.
  repeat split.
  - destruct input_dim; cbn; [discriminate | reflexivity].
  - intros ->. reflexivity.
  - destruct input_dim; cbn; [discriminate | reflexivity].
  - intros ->. reflexivity.
  - destruct input_dim; cbn; intros e [He|He]; congruence.
  - subst input_dim. reflexivity.
  - subst input_dim. reflexivity.
  - unfold tf_shape, nrows, tf_eye. cbn [rows ncols].
    rewrite length_map, length_seq. reflexivity.
  - apply tf_eye_wf.
  - intros i j Hi Hj. apply tf_eye_entry; assumption.
Qed.

(** C8.  Assigning to A or b of an Identity raises nothing and leaves the
    object as it was: reading A and b afterwards gives what it gave before,
    and evaluation still returns the batch. *)
Theorem Identity_setters_noop (input_dim : option nat)
  (value_A : matrix R) (value_b : list R) X :
  set_A (Identity input_dim) value_A = OK (Identity input_dim) /\
  set_b (Identity input_dim) value_b = OK (Identity input_dim) /\
  (self' <- set_A (Identity input_dim) value_A ;; get_A self')
    = get_A (Identity input_dim) /\
  (self' <- set_A (Identity input_dim) value_A ;; get_b self')
    = get_b (Identity input_dim) /\
  (self' <- set_b (Identity input_dim) value_b ;; get_A self')
    = get_A (Identity input_dim) /\
  (self' <- set_b (Identity input_dim) value_b ;; get_b self')
    = get_b (Identity input_dim) /\
  (self' <- set_A (Identity input_dim) value_A ;; call self' X) = OK X /\
  (self' <- set_b (Identity input_dim) value_b ;; call self' X) = OK X.
Proof. repeat split. Qed.

(** For contrast, the same assignments on a Linear are stored. *)
Lemma Linear_setters_store (A value_A : matrix R) (b value_b : list R) :
  (self' <- set_A (Linear A b) value_A ;; get_A self') = OK value_A /\
  (self' <- set_b (Linear A b) value_b ;; get_b self') = OK value_b.
Proof. split; reflexivity. Qed.

(** ** Constant and Zero *)

(** C9.  Constant with parameter c of length Q, kept as the 1 x Q row,
    returns the N x Q matrix whose rows all are c; Zero with output_dim Q
    returns the N x Q matrix of zeros, whose shape is the shape of X with
    its last axis replaced by Q.  Both use X only through its row count:
    any batch with as many rows gives the same result. *)
Theorem Constant_Zero_call_spec (c : list R) (q : nat) X :
  (Constant_c c = {| ncols := length c; rows := [c] |} /\
   exists Y,
     call (Constant c) X = OK Y /\
     tf_shape Y = [nrows X; length c] /\
     (forall i, i < nrows X -> nth i (rows Y) [] = c) /\
     (forall X', nrows X' = nrows X -> call (Constant c) X' = OK Y)) /\
  (exists Z,
     call (Zero q) X = OK Z /\
     tf_shape Z = removelast (tf_shape X) ++ [q] /\
     tf_shape Z = [nrows X; q] /\
     (forall i, i < nrows X -> nth i (rows Z) [] = repeat szero q) /\
     (forall i j, i < nrows X -> j < q -> entry Z i j = szero) /\
     (forall X', nrows X' = nrows X -> call (Zero q) X' = OK Z)).
Proof.
  split; [split; [reflexivity|]|].
  - eexists. split; [apply Constant_call_eq|]. repeat split.
    + unfold tf_shape, nrows. cbn [rows ncols]. rewrite repeat_length. reflexivity.
    + intros i Hi. cbn [rows]. apply nth_repeat_lt. exact Hi.
    + intros X' HX'. rewrite Constant_call_eq, HX'. reflexivity.
  - eexists. split; [apply Zero_call_eq|]. repeat split.
    + unfold tf_shape, nrows. cbn [rows ncols removelast app].
      rewrite repeat_length. reflexivity.
    + unfold tf_shape, nrows. cbn [rows ncols]. rewrite repeat_length. reflexivity.
    + intros i Hi. cbn [rows]. apply nth_repeat_lt. exact Hi.
    + intros i j Hi Hj. unfold entry. cbn [rows].
      rewrite (nth_repeat_lt (repeat szero q)) by exact Hi.
      apply nth_repeat_lt. exact Hj.
    + intros X' HX'. rewrite Zero_call_eq, HX'. reflexivity.
Qed.

(** ** Additive and Product *)

Lemma broadcast_op_same_shape (op : R -> R -> R) (a b : matrix R) :
  nrows a = nrows b -> ncols a = ncols b ->
  exists Y,
    broadcast_op op a b = OK Y /\
    tf_shape Y = tf_shape a /\
    forall i j, i < nrows a -> j < ncols a ->
      entry Y i j = op (entry a i j) (entry b i j).
Proof.
  intros Hn Hc. rewrite broadcast_op_rows_eq by exact Hn.
  rewrite <- Hc, broadcast_dim_same. cbn [bind].
  eexists. split; [reflexivity|]. split.
  - unfold tf_shape, nrows. cbn [rows ncols]. rewrite length_map, length_seq.
    reflexivity.
  - intros i j Hi Hj. unfold entry. cbn [rows].
    rewrite nth_map_seq by exact Hi. cbn [Nat.add].
    rewrite nth_broadcast_row by exact Hj.
    rewrite !pick_lt by exact Hj. reflexivity.
Qed.

(** C3.  When the two children evaluate on X to outputs of equal width,
    Additive returns their entrywise sum and Product their entrywise
    product, with the shape of the children's outputs; swapping the
    children gives the same values, although the two trees differ, the
    children being kept in the order given (also by + and * ). *)
Theorem Additive_Product_spec (f1 f2 : MeanFunction R) X (a b : matrix R) :
  call f1 X = OK a -> call f2 X = OK b -> ncols a = ncols b ->
  exists S P,
    call (Additive f1 f2) X = OK S /\
    call (Product f1 f2) X = OK P /\
    tf_shape S = tf_shape a /\ tf_shape P = tf_shape a /\
    (forall i j, i < nrows X -> j < ncols a ->
       entry S i j = sadd (entry a i j) (entry b i j) /\
       entry P i j = smul (entry a i j) (entry b i j)) /\
    call (Additive f2 f1) X = OK S /\
    call (Product f2 f1) X = OK P /\
    mf_add f1 f2 = Additive f1 f2 /\
    mf_mul f1 f2 = Product f1 f2 /\
    (f1 <> f2 ->
     Additive f1 f2 <> Additive f2 f1 /\ Product f1 f2 <> Product f2 f1).
Proof.
  intros Ha Hb Hc.
  assert (Hn : nrows a = nrows b)
    by (rewrite (call_nrows _ _ _ Ha), (call_nrows _ _ _ Hb); reflexivity).
  destruct (broadcast_op_same_shape sadd a b Hn Hc) as (S & HS & HSs & HSe).
  destruct (broadcast_op_same_shape smul a b Hn Hc) as (P & HP & HPs & HPe).
  exists S, P. cbn [call]. rewrite Ha, Hb. cbn [bind]. unfold tf_add, tf_multiply.
  rewrite (broadcast_op_comm sadd b a sadd_comm).
  rewrite (broadcast_op_comm smul b a smul_comm).
  repeat split; try assumption.
  - apply HSe; [rewrite (call_nrows _ _ _ Ha)|]; assumption.
  - apply HPe; [rewrite (call_nrows _ _ _ Ha)|]; assumption.
  - intros E. injection E as E1 E2. contradiction.
  - intros E. injection E as E1 E2. contradiction.
Qed.

(** C5, as amended.  When the children's outputs on X have different
    widths and neither width is 1, Additive and Product fail with the
    shape mismatch of the broadcast; when one of the widths is 1 that output
    is broadcast along the columns of the other and a result is returned:
    entry (i, j) combines the single entry of row i of the one-column
    output with entry (i, j) of the other. *)
Theorem Additive_Product_shape_mismatch (f1 f2 : MeanFunction R) X
  (a b : matrix R) :
  call f1 X = OK a -> call f2 X = OK b -> ncols a <> ncols b ->
  (ncols a <> 1 -> ncols b <> 1 ->
   call (Additive f1 f2) X = Error IncompatibleShapes /\
   call (Product f1 f2) X = Error IncompatibleShapes) /\
  (ncols a = 1 \/ ncols b = 1 ->
   exists S P,
     call (Additive f1 f2) X = OK S /\ call (Product f1 f2) X = OK P /\
     tf_shape S = [nrows X; if ncols a =? 1 then ncols b else ncols a] /\
     tf_shape P = [nrows X; if ncols a =? 1 then ncols b else ncols a] /\
     forall i j, i < nrows X ->
       j < (if ncols a =? 1 then ncols b else ncols a) ->
       entry S i j =
         sadd (entry a i (if ncols a =? 1 then 0 else j))
              (entry b i (if ncols b =? 1 then 0 else j)) /\
       entry P i j =
         smul (entry a i (if ncols a =? 1 then 0 else j))
              (entry b i (if ncols b =? 1 then 0 else j))).
Proof.
  intros Ha Hb Hc.
  assert (Hn : nrows a = nrows b)
    by (rewrite (call_nrows _ _ _ Ha), (call_nrows _ _ _ Hb); reflexivity).
  pose proof (call_nrows _ _ _ Ha) as HnX.
  cbn [call]. rewrite Ha, Hb. cbn [bind]. unfold tf_add, tf_multiply.
  rewrite !broadcast_op_rows_eq by exact Hn. unfold broadcast_dim.
  rewrite (proj2 (Nat.eqb_neq _ _) Hc). split.
  - intros H1 H2.
    rewrite (proj2 (Nat.eqb_neq _ _) H1), (proj2 (Nat.eqb_neq _ _) H2).
    split; reflexivity.
  - intros H1.
    assert (E : (if ncols a =? 1 then OK (ncols b)
                 else if ncols b =? 1 then OK (ncols a)
                 else Error IncompatibleShapes)
                = OK (if ncols a =? 1 then ncols b else ncols a)).
    { destruct (ncols a =? 1) eqn:Ea; [reflexivity|].
      destruct (ncols b =? 1) eqn:Eb; [reflexivity|].
      apply Nat.eqb_neq in Ea, Eb. lia. }
    rewrite E. cbn [bind]. eexists. eexists.
    split; [reflexivity|]. split; [reflexivity|].
    split; [|split].
    + unfold tf_shape, nrows. cbn [rows ncols].
      rewrite !length_map, !length_seq. fold (nrows a). rewrite HnX.
      reflexivity.
    + unfold tf_shape, nrows. cbn [rows ncols].
      rewrite !length_map, !length_seq. fold (nrows a). rewrite HnX.
      reflexivity.
    + intros i j Hi Hj. rewrite <- HnX in Hi. unfold entry. cbn [rows].
      rewrite !nth_map_seq by exact Hi. cbn [Nat.add].
      rewrite !nth_broadcast_row by exact Hj.
      split; reflexivity.
Qed.

(** ** Row-wise evaluation *)

(** C4.  For every mean function of the module and every well-formed batch
    on which it evaluates, the result is a well-formed matrix with as many
    rows as the batch, and its row i is determined by row i of the batch
    alone: it is the result of evaluating the mean function on the batch
    made of that single row, so two batches that agree on row i give the
    same row i.  The label a switch reads for row i is the last entry of
    row i. *)
Theorem call_rowwise m X Y :
  wf_matrix X -> call m X = OK Y ->
  wf_matrix Y /\ nrows Y = nrows X /\
  forall i, i < nrows X ->
    call m (single_row (ncols X) (nth i (rows X) [])) =
      OK (single_row (ncols Y) (nth i (rows Y) [])) /\
    nth i (labels X) 0%Z =
      cast_int32 (nth (ncols X - 1) (nth i (rows X) []) szero) /\
    forall X' Y',
      wf_matrix X' -> call m X' = OK Y' -> i < nrows X' ->
      nth i (rows X') [] = nth i (rows X) [] ->
      nth i (rows Y') [] = nth i (rows Y) [].
Proof.
  intros Hwf HY.
  split; [exact (call_wf m X Y Hwf HY)|].
  split; [exact (call_nrows m X Y HY)|].
  intros i Hi.
  pose proof (call_single_row m X Y i HY Hi) as HS.
  split; [exact HS|]. split.
  - unfold labels. rewrite (nth_map_lt _ (rows X) i 0%Z []) by exact Hi.
    reflexivity.
  - intros X' Y' Hwf' HY' Hi' E.
    pose proof (call_single_row m X' Y' i HY' Hi') as HS'.
    assert (Ec : ncols X' = ncols X).
    { rewrite <- (wf_row_length X' i Hwf' Hi'), <- (wf_row_length X i Hwf Hi), E.
      reflexivity. }
    rewrite Ec, E, HS in HS'. injection HS' as _ Hr. symmetry. exact Hr.
Qed.

(** ** SwitchedMeanFunction *)

(** C1.  On a well-formed batch with D + 1 columns whose last column casts
    to labels below K, and K children that evaluate on their groups to
    width Q, the switch returns a matrix of shape (N, Q).  Group g holds
    the first D columns of the rows labelled g, in their order; child g is
    evaluated on group g; row i of the result is the row of child label_i's
    output at the rank of i in its group, and it equals child label_i
    applied to the first D columns of row i.  On the batch
    [[0.1, 0], [0.2, 1], [0.3, 0]] with children Constant([1]) and
    Constant([2]) the result is [[1], [2], [1]]. *)
Theorem Switched_call_spec :
  (forall (ms : list (MeanFunction R)) X (D Q : nat),
     wf_matrix X -> ncols X = S D -> 0 < length ms ->
     Forall (fun r => label_ok (length ms) (cast_int32 (nth D r szero)) = true)
            (rows X) ->
     (forall g, g < length ms ->
        exists Zg, call (nth g ms (Zero 0)) (group g X) = OK Zg /\ ncols Zg = Q) ->
     exists Y results,
       call (SwitchedMeanFunction ms) X = OK Y /\
       tf_shape Y = [nrows X; Q] /\
       length results = length ms /\
       (forall g, g < length ms ->
          rows (group g X) =
            map (firstn D)
                (filter (fun r => (cast_int32 (nth D r szero) =? Z.of_nat g)%Z)
                        (rows X)) /\
          call (nth g ms (Zero 0)) (group g X) = OK (nth g results empty_matrix)) /\
       forall i, i < nrows X ->
         let x := nth i (rows X) [] in
         let l := cast_int32 (nth D x szero) in
         nth i (rows Y) [] =
           nth (rank l (labels X) i)
               (rows (nth (Z.to_nat l) results empty_matrix)) [] /\
         call (nth (Z.to_nat l) ms (Zero 0)) (single_row D (firstn D x)) =
           OK (single_row Q (nth i (rows Y) []))) /\
  call switched_example X_example =
    OK {| ncols := 1; rows := [[1%Q]; [2%Q]; [1%Q]] |}.
Proof.
  split; [|reflexivity].
  intros ms X D Q Hwf Hc HK Hlast Hex.
  assert (Hlab : Forall (fun p => label_ok (length ms) p = true) (labels X)).
  { rewrite (labels_last_column D X Hc). apply Forall_map. exact Hlast. }
  destruct (Switched_call_exists ms X Q) as
    (Y & results & HY & HQ & Hn & Hlen & Hcall & Hrow);
    [lia | exact HK | exact Hlab | exact Hex |].
  exists Y, results.
  split; [exact HY|].
  split; [unfold tf_shape; rewrite Hn, HQ; reflexivity|].
  split; [exact Hlen|].
  split.
  - intros g Hg. split; [apply group_filter; assumption | apply Hcall; exact Hg].
  - intros i Hi x l.
    assert (El : nth i (labels X) 0%Z = l).
    { rewrite (labels_last_column D X Hc).
      rewrite (nth_map_lt _ (rows X) i 0%Z []) by exact Hi. reflexivity. }
    specialize (Hrow i Hi). rewrite El in Hrow.
    split; [exact Hrow|].
    assert (Hl : label_ok (length ms) (nth i (labels X) 0%Z) = true).
    { apply (Forall_nth_lt _ _ _ _ Hlab). rewrite length_labels. exact Hi. }
    destruct (group_rank (length ms) X i Hi Hl) as [Hr1 Hr2].
    destruct (label_ok_range _ _ Hl) as [Hg _].
    rewrite El in Hr1, Hr2, Hg.
    pose proof (call_single_row _ _ _ _ (Hcall _ Hg) Hr1) as HS.
    rewrite Hr2, <- Hrow in HS.
    destruct (Hex _ Hg) as (Zg & HZ & HZQ).
    rewrite (Hcall _ Hg) in HZ. injection HZ as <-. rewrite HZQ in HS.
    change (ncols (group (Z.to_nat l) X)) with (ncols X - 1) in HS.
    rewrite Hc in HS. cbn [Nat.sub] in HS. rewrite Nat.sub_0_r in HS.
    rewrite row_features_firstn in HS; [exact HS|].
    rewrite <- Hc. apply wf_row_length; assumption.
Qed.

Lemma fst_call_switch_logged (ms : list (MeanFunction R)) X :
  fst (call_switch_logged ms X) = call (SwitchedMeanFunction ms) X.
Proof.
  unfold call_switch_logged. cbn [call].
  destruct (switch_labels X) as [ind|e]; [|reflexivity].
  destruct (switch_features X) as [X'|e]; [|reflexivity].
  cbn [bind].
  destruct (partition_rows X' ind (length ms)) as [x_list|e]; [|reflexivity].
  cbn [bind].
  pose proof (fst_zipM_log call 0 ms x_list) as Hf.
  destruct (zipM_log call 0 ms x_list) as [results log].
  cbn [fst] in *. rewrite Hf. reflexivity.
Qed.

Lemma snd_call_switch_logged (ms : list (MeanFunction R)) X
  (results : list (matrix R)) :
  0 < ncols X -> 0 < length ms ->
  Forall (fun p => label_ok (length ms) p = true) (labels X) ->
  zipM call ms (map (fun g => group g X) (seq 0 (length ms))) = OK results ->
  snd (call_switch_logged ms X) =
  map (fun g => (g, group g X)) (seq 0 (length ms)).
Proof.
  intros Hc HK Hlab Hz. unfold call_switch_logged.
  rewrite switch_labels_eq, switch_features_eq.
  rewrite (proj2 (Nat.eqb_neq _ 0)) by lia.
  rewrite partition_rows_groups by assumption.
  pose proof (snd_zipM_log_ok call 0 ms _ results Hz) as Hs.
  destruct (zipM_log call 0 ms (map (fun g => group g X) (seq 0 (length ms))))
    as [rs log].
  cbn [snd] in *. rewrite Hs by (rewrite length_map, length_seq; reflexivity).
  apply combine_seq_map.
Qed.

(** C10.  One evaluation of a switch with K children, on a batch whose
    labels are below K, evaluates the comprehension over the K children
    zipped with the K groups: child g is applied once, to group g, which
    has D columns and the rows labelled g, none if the label does not
    occur.  If a child fails on its group, the empty one included, the
    evaluation fails; when the evaluation returns, every child has returned
    on its group and the result has one row per row of the batch.  When
    every child returns on its group with one width Q, the evaluation
    returns: the log of the invocations made is (0, group 0), ...,
    (K - 1, group (K - 1)), so every child index occurs in it exactly once,
    and the result has shape (N, Q), its row i being the row of child
    label_i's output at the rank of i in its group. *)
Theorem Switched_invokes_each_child (ms : list (MeanFunction R)) X (D : nat) :
  wf_matrix X -> ncols X = S D -> 0 < length ms ->
  Forall (fun r => label_ok (length ms) (cast_int32 (nth D r szero)) = true)
         (rows X) ->
  let x_list := map (fun g => group g X) (seq 0 (length ms)) in
  partition_rows (features X) (labels X) (length ms) = OK x_list /\
  length x_list = length ms /\
  call (SwitchedMeanFunction ms) X =
    (results <- zipM call ms x_list ;;
     partitions <- tf_dynamic_partition (seq 0 (nrows X)) (labels X) (length ms) ;;
     tf_dynamic_stitch partitions results) /\
  (forall g, g < length ms ->
     nth g x_list empty_matrix = group g X /\
     ncols (group g X) = D /\
     rows (group g X) =
       map (firstn D)
           (filter (fun r => (cast_int32 (nth D r szero) =? Z.of_nat g)%Z)
                   (rows X)) /\
     ((forall r, In r (rows X) -> cast_int32 (nth D r szero) <> Z.of_nat g) ->
      group g X = {| ncols := D; rows := [] |}) /\
     (forall e, call (nth g ms (Zero 0)) (group g X) = Error e ->
        exists e', call (SwitchedMeanFunction ms) X = Error e')) /\
  (forall Y, call (SwitchedMeanFunction ms) X = OK Y ->
     nrows Y = nrows X /\
     exists results,
       length results = length ms /\
       zipM call ms x_list = OK results /\
       forall g, g < length ms ->
         call (nth g ms (Zero 0)) (group g X) = OK (nth g results empty_matrix)) /\
  fst (call_switch_logged ms X) = call (SwitchedMeanFunction ms) X /\
  (forall Q,
     (forall g, g < length ms ->
        exists Zg, call (nth g ms (Zero 0)) (group g X) = OK Zg /\ ncols Zg = Q) ->
     exists Y results,
       call_switch_logged ms X =
         (OK Y, map (fun g => (g, group g X)) (seq 0 (length ms))) /\
       call (SwitchedMeanFunction ms) X = OK Y /\
       tf_shape Y = [nrows X; Q] /\
       length results = length ms /\
       (forall g, g < length ms ->
          call (nth g ms (Zero 0)) (group g X) = OK (nth g results empty_matrix) /\
          In (g, group g X) (snd (call_switch_logged ms X)) /\
          count_occ Nat.eq_dec (map fst (snd (call_switch_logged ms X))) g = 1) /\
       forall i, i < nrows X ->
         nth i (rows Y) [] =
         nth (rank (nth i (labels X) 0%Z) (labels X) i)
             (rows (nth (Z.to_nat (nth i (labels X) 0%Z)) results empty_matrix))
             []).
Proof.
  intros Hwf Hc HK Hlast x_list.
  assert (Hlab : Forall (fun p => label_ok (length ms) p = true) (labels X)).
  { rewrite (labels_last_column D X Hc). apply Forall_map. exact Hlast. }
  assert (Hlen : length x_list = length ms)
    by (unfold x_list; rewrite length_map, length_seq; reflexivity).
  assert (Hnth : forall g, g < length ms -> nth g x_list empty_matrix = group g X).
  { intros g Hg. unfold x_list.
    rewrite nth_map_seq by exact Hg. reflexivity. }
  assert (Heq : call (SwitchedMeanFunction ms) X =
                (results <- zipM call ms x_list ;;
                 partitions <- tf_dynamic_partition (seq 0 (nrows X)) (labels X)
                                 (length ms) ;;
                 tf_dynamic_stitch partitions results)).
  { rewrite Switched_call_eq, Hc. cbn [Nat.eqb].
    rewrite partition_rows_groups by assumption. reflexivity. }
  split; [apply partition_rows_groups; assumption|].
  split; [exact Hlen|]. split; [exact Heq|]. split; [|split; [|split]].
  - intros g Hg. split; [apply Hnth; exact Hg|].
    split; [unfold group; cbn [ncols]; lia|].
    pose proof (group_filter g D X Hc Hwf) as Hgf.
    split; [exact Hgf|]. split.
    + intros Hnone. unfold group in *. cbn [rows] in Hgf. rewrite Hgf, Hc.
      cbn [Nat.sub]. rewrite Nat.sub_0_r. f_equal.
      rewrite filter_none; [reflexivity|].
      intros r Hr. apply Z.eqb_neq. apply Hnone. exact Hr.
    + intros e He. rewrite Heq.
      destruct (zipM_error call ms x_list (Zero 0) empty_matrix g e) as (e' & He').
      * symmetry. exact Hlen.
      * exact Hg.
      * rewrite Hnth by exact Hg. exact He.
      * exists e'. rewrite He'. reflexivity.
  - intros Y HY. split; [exact (call_nrows _ _ _ HY)|].
    rewrite Heq in HY. apply bind_ok in HY. destruct HY as (results & Hz & _).
    destruct (zipM_inv call ms x_list results (Zero 0) empty_matrix empty_matrix Hz)
      as [Hl Hcall]; [symmetry; exact Hlen|].
    exists results. split; [exact Hl|]. split; [exact Hz|].
    intros g Hg. rewrite <- (Hnth g Hg). apply Hcall. exact Hg.
  - apply fst_call_switch_logged.
  - intros Q Hex.
    destruct (Switched_call_exists ms X Q) as
      (Y & results & HY & HQ & Hn & Hlr & Hcall & Hrow);
      [lia | exact HK | exact Hlab | exact Hex |].
    assert (Hz : zipM call ms x_list = OK results).
    { apply (zipM_intro call ms x_list results (Zero 0) empty_matrix empty_matrix).
      - symmetry. exact Hlen.
      - exact Hlr.
      - intros g Hg. rewrite Hnth by exact Hg. apply Hcall. exact Hg. }
    assert (Hc0 : 0 < ncols X) by lia.
    pose proof (snd_call_switch_logged ms X results Hc0 HK Hlab Hz) as Hlog.
    exists Y, results.
    split.
    { rewrite (surjective_pairing (call_switch_logged ms X)).
      rewrite fst_call_switch_logged, HY, Hlog. reflexivity. }
    split; [exact HY|].
    split; [unfold tf_shape; rewrite Hn, HQ; reflexivity|].
    split; [exact Hlr|].
    split; [|exact Hrow].
    intros g Hg. split; [apply Hcall; exact Hg|]. rewrite Hlog. split.
    + apply (in_map (fun g0 => (g0, group g0 X))). apply in_seq. lia.
    + rewrite map_map. cbn [fst]. rewrite map_id.
      apply NoDup_count_occ'; [apply seq_NoDup | apply in_seq; lia].
Qed.

End Properties.

(** * Concrete evaluations on rational batches *)

Lemma wf_X_example : wf_matrix X_example.
Proof. unfold wf_matrix. cbn. repeat constructor. Defined.

Lemma wf_X_other : wf_matrix X_other.
Proof. unfold wf_matrix. cbn. repeat constructor. Defined.

Lemma labels_X_example :
  Forall (fun r => label_ok 2 (cast_int32 (nth 1 r szero)) = true)
         (rows X_example).
Proof. cbn. repeat constructor. Defined.

Lemma Switched_call_spec_witness :
  exists Y,
    call switched_example X_example = OK Y /\ tf_shape Y = [3; 1] /\
    call (Constant [2%Q]) (single_row 1 [(2 # 10)%Q]) =
      OK (single_row 1 (nth 1 (rows Y) [])).
Proof.
  destruct (proj1 (Switched_call_spec (R := Q))
              [Constant [1%Q]; Constant [2%Q]] X_example 1 1
              wf_X_example eq_refl (Nat.lt_0_succ 1) labels_X_example)
    as (Y & results & HY & Hs & _ & _ & Hrow).
  - intros [|[|g]] Hg.
    + eexists. split; reflexivity.
    + eexists. split; reflexivity.
    + exfalso. cbn in Hg. lia.
  - exists Y. split; [exact HY|]. split; [exact Hs|].
    assert (H1 : 1 < nrows X_example) by (cbn; lia).
    exact (proj2 (Hrow 1 H1)).
Defined.

Lemma Linear_call_spec_witness :
  (exists Y,
     call (Linear A_example b_example) X_example = OK Y /\
     tf_shape Y = [3; 1] /\
     entry Y 1 0 =
       sadd (sigma 2 (fun k => smul (entry X_example 1 k) (entry A_example k 0)))
            1%Q) /\
  call (Linear A_example b_example) (single_row 1 [1%Q]) = Error DimensionMismatch.
Proof.
  split.
  - destruct (proj1 (Linear_call_spec (R := Q) A_example b_example X_example)
                wf_X_example eq_refl eq_refl)
      as (Y & HY & Hs & _ & _ & He).
    exists Y. split; [exact HY|]. split; [exact Hs|].
    apply (He 1 0); cbn; lia.
  - apply (proj2 (Linear_call_spec (R := Q) A_example b_example
                    (single_row 1 [1%Q]))).
    cbn. lia.
Defined.

Lemma Additive_Product_spec_witness :
  exists S P,
    call (Additive (Constant [1%Q; 2%Q]) (Identity None)) X_example = OK S /\
    call (Product (Constant [1%Q; 2%Q]) (Identity None)) X_example = OK P /\
    call (Additive (Identity None) (Constant [1%Q; 2%Q])) X_example = OK S /\
    call (Product (Identity None) (Constant [1%Q; 2%Q])) X_example = OK P /\
    entry S 1 0 = sadd 1%Q (2 # 10)%Q /\
    entry P 1 0 = smul 1%Q (2 # 10)%Q.
Proof.
  destruct (Additive_Product_spec (R := Q)
              (Constant [1%Q; 2%Q]) (Identity None) X_example
              {| ncols := 2;
                 rows := [[1%Q; 2%Q]; [1%Q; 2%Q]; [1%Q; 2%Q]] |}
              X_example eq_refl eq_refl eq_refl)
    as (S & P & HS & HP & _ & _ & He & HS' & HP' & _).
  exists S, P. repeat split; try assumption.
  - apply (He 1 0); cbn; lia.
  - apply (He 1 0); cbn; lia.
Defined.

Lemma switched_example_value :
  call switched_example X_example =
  OK {| ncols := 1; rows := [[1%Q]; [2%Q]; [1%Q]] |}.
Proof. vm_compute. reflexivity. Defined.

Lemma switched_other_value :
  call switched_example X_other =
  OK {| ncols := 1; rows := [[2%Q]; [2%Q]; [2%Q]] |}.
Proof. vm_compute. reflexivity. Defined.

Lemma call_rowwise_witness :
  nrows {| ncols := 1; rows := [[1%Q]; [2%Q]; [1%Q]] |} = 3 /\
  call switched_example (single_row 2 [(2 # 10)%Q; 1%Q]) = OK (single_row 1 [2%Q]) /\
  nth 1 (rows {| ncols := 1; rows := [[2%Q]; [2%Q]; [2%Q]] |}) [] =
  nth 1 (rows {| ncols := 1; rows := [[1%Q]; [2%Q]; [1%Q]] |}) [].
Proof.
  destruct (call_rowwise (R := Q) switched_example X_example
              {| ncols := 1; rows := [[1%Q]; [2%Q]; [1%Q]] |}
              wf_X_example switched_example_value)
    as (_ & Hn & Hrow).
  assert (H1 : 1 < nrows X_example) by (cbn; lia).
  destruct (Hrow 1 H1) as (Hs & _ & Hind).
  split; [exact Hn|]. split; [exact Hs|].
  apply (Hind X_other {| ncols := 1; rows := [[2%Q]; [2%Q]; [2%Q]] |}
              wf_X_other switched_other_value H1 eq_refl).
Defined.

(** The claim C5 as stated fails: a child output with a single column is
    broadcast against an output with two columns, and a result is returned. *)
Lemma Additive_single_column_broadcasts :
  ~ (forall (f1 f2 : MeanFunction Q) (X a b : matrix Q),
       call f1 X = OK a -> call f2 X = OK b -> ncols a <> ncols b ->
       is_ok (call (Additive f1 f2) X) = false /\
       is_ok (call (Product f1 f2) X) = false).
Proof.
  intros Hclaim.
  destruct (Hclaim (Constant [1%Q]) (Constant [2%Q; 3%Q]) X_example
                   {| ncols := 1; rows := [[1%Q]; [1%Q]; [1%Q]] |}
                   {| ncols := 2;
                      rows := [[2%Q; 3%Q]; [2%Q; 3%Q]; [2%Q; 3%Q]] |}
                   eq_refl eq_refl) as [Hadd _].
  - cbn. lia.
  - vm_compute in Hadd. discriminate Hadd.
Qed.

Lemma Additive_Product_shape_mismatch_witness :
  (call (Additive (Constant [1%Q; 2%Q]) (Constant [1%Q; 2%Q; 3%Q])) X_example
     = Error IncompatibleShapes /\
   call (Product (Constant [1%Q; 2%Q]) (Constant [1%Q; 2%Q; 3%Q])) X_example
     = Error IncompatibleShapes) /\
  exists S P,
    call (Additive (Constant [1%Q]) (Constant [2%Q; 3%Q])) X_example = OK S /\
    call (Product (Constant [1%Q]) (Constant [2%Q; 3%Q])) X_example = OK P /\
    tf_shape S = [3; 2] /\ tf_shape P = [3; 2] /\
    entry S 2 1 = sadd 1%Q 3%Q /\ entry P 2 1 = smul 1%Q 3%Q.
Proof.
  split.
  - apply (proj1 (Additive_Product_shape_mismatch (R := Q)
                    (Constant [1%Q; 2%Q]) (Constant [1%Q; 2%Q; 3%Q]) X_example
                    {| ncols := 2;
                       rows := [[1%Q; 2%Q]; [1%Q; 2%Q]; [1%Q; 2%Q]] |}
                    {| ncols := 3;
                       rows := [[1%Q; 2%Q; 3%Q]; [1%Q; 2%Q; 3%Q]; [1%Q; 2%Q; 3%Q]] |}
                    eq_refl eq_refl ltac:(cbn; lia)));
      cbn; lia.
  - destruct (proj2 (Additive_Product_shape_mismatch (R := Q)
                       (Constant [1%Q]) (Constant [2%Q; 3%Q]) X_example
                       {| ncols := 1; rows := [[1%Q]; [1%Q]; [1%Q]] |}
                       {| ncols := 2;
                          rows := [[2%Q; 3%Q]; [2%Q; 3%Q]; [2%Q; 3%Q]] |}
                       eq_refl eq_refl ltac:(cbn; lia))
                (or_introl eq_refl))
      as (S & P & HS & HP & HSs & HPs & He).
    exists S, P. repeat (split; [assumption|]).
    apply (He 2 1); cbn; lia.
Defined.

Lemma Identity_call_spec_witness :
  call (Identity (Some 3)) X_example = OK X_example /\
  call (Linear (tf_eye 3) (tf_zeros_1d 3)) X_example = Error DimensionMismatch.
Proof.
  destruct (Identity_call_spec (R := Q) (Some 3) X_example) as (HX & _ & _ & HD).
  split; [exact HX|].
  apply (HD 3). cbn. lia.
Defined.

Lemma Identity_A_b_spec_witness :
  get_A (Identity (R := Q) (Some 2)) = OK (tf_eye 2) /\
  get_b (Identity (R := Q) (Some 2)) = OK [0%Q; 0%Q] /\
  entry (tf_eye (R := Q) 2) 0 1 = 0%Q /\
  entry (tf_eye (R := Q) 2) 1 1 = 1%Q.
Proof.
  destruct (Identity_A_b_spec (R := Q) (Some 2)) as (_ & _ & _ & _ & HD).
  destruct (HD 2 eq_refl) as (HA & Hb & _ & _ & He).
  split; [exact HA|]. split; [exact Hb|].
  split; [apply (He 0 1) | apply (He 1 1)]; lia.
Defined.

Lemma Constant_Zero_call_spec_witness :
  call (Constant [1%Q]) X_other = call (Constant [1%Q]) X_example /\
  call (Zero (R := Q) 2) X_other = call (Zero 2) X_example /\
  entry {| ncols := 2; rows := [[0%Q; 0%Q]; [0%Q; 0%Q]; [0%Q; 0%Q]] |} 2 1 = 0%Q.
Proof.
  destruct (Constant_Zero_call_spec (R := Q) [1%Q] 2 X_example)
    as ((_ & Y & HY & _ & _ & HX') & (Z & HZ & _ & _ & _ & He & HZ')).
  split; [rewrite (HX' X_other eq_refl), HY; reflexivity|].
  split; [rewrite (HZ' X_other eq_refl), HZ; reflexivity|].
  injection HZ as <-. apply (He 2 1); cbn; lia.
Defined.

Lemma labels_X_example_three :
  Forall (fun r => label_ok 3 (cast_int32 (nth 1 r szero)) = true)
         (rows X_example).
Proof. cbn. repeat constructor. Defined.

Lemma Switched_invokes_each_child_witness :
  group 2 X_example = {| ncols := 1; rows := [] |} /\
  (exists e', call switched_three X_example = Error e') /\
  call_switch_logged [Constant [1%Q]; Constant [2%Q]; Constant [5%Q]] X_example =
    (OK {| ncols := 1; rows := [[1%Q]; [2%Q]; [1%Q]] |},
     [(0, {| ncols := 1; rows := [[(1 # 10)%Q]; [(3 # 10)%Q]] |});
      (1, {| ncols := 1; rows := [[(2 # 10)%Q]] |});
      (2, {| ncols := 1; rows := [] |})]) /\
  count_occ Nat.eq_dec
    (map fst (snd (call_switch_logged
                     [Constant [1%Q]; Constant [2%Q]; Constant [5%Q]] X_example)))
    2 = 1.
Proof.
  assert (H3 : 0 < 3) by lia.
  assert (H2 : 2 < 3) by lia.
  split; [|split].
  - destruct (Switched_invokes_each_child (R := Q)
                [Constant [1%Q]; Constant [2%Q]; Linear A_example b_example]
                X_example 1 wf_X_example eq_refl H3 labels_X_example_three)
      as (_ & _ & _ & Hg & _).
    destruct (Hg 2 H2) as (_ & _ & _ & Hempty & _).
    apply Hempty. intros r Hr. cbn in Hr.
    destruct Hr as [<-|[<-|[<-|[]]]]; vm_compute; discriminate.
  - destruct (Switched_invokes_each_child (R := Q)
                [Constant [1%Q]; Constant [2%Q]; Linear A_example b_example]
                X_example 1 wf_X_example eq_refl H3 labels_X_example_three)
      as (_ & _ & _ & Hg & _).
    destruct (Hg 2 H2) as (_ & _ & _ & _ & Herr).
    apply (Herr DimensionMismatch). reflexivity.
  - destruct (Switched_invokes_each_child (R := Q)
                [Constant [1%Q]; Constant [2%Q]; Constant [5%Q]]
                X_example 1 wf_X_example eq_refl H3 labels_X_example_three)
      as (_ & _ & _ & _ & _ & _ & Hret).
    destruct (Hret 1) as (Y & results & Hlog & HY & _ & _ & Hcall & _).
    + intros [|[|[|g]]] Hg.
      * eexists. split; reflexivity.
      * eexists. split; reflexivity.
      * eexists. split; reflexivity.
      * exfalso. cbn in Hg. lia.
    + vm_compute in HY. injection HY as <-.
      split; [exact Hlog|]. exact (proj2 (proj2 (Hcall 2 H2))).
Defined.

(** Children of different widths cannot be stitched: the rows of the
    children's outputs must have one shape. *)
Example Switched_width_mismatch :
  call (SwitchedMeanFunction [Constant [1%Q]; Constant [2%Q; 3%Q]]) X_example
  = Error IncompatibleShapes.
Proof. vm_compute. reflexivity. Qed.

(** A label outside the range of the children is refused by the partition. *)
Example Switched_label_out_of_range :
  call (SwitchedMeanFunction [Constant [1%Q]]) X_example = Error IndexOutOfRange.
Proof. vm_compute. reflexivity. Qed.

(** * Further properties of the evaluation *)

Section FurtherLists.

Context {A : Type}.

Lemma filter_all (f : A -> bool) (l : list A) :
  (forall x, In x l -> f x = true) -> filter f l = l.
Proof.
  induction l as [|a l IH]; intros Hf; cbn; [reflexivity|].
  rewrite (Hf a) by (left; reflexivity). f_equal.
  apply IH. intros x Hx. apply Hf. right. exact Hx.
Qed.

End FurtherLists.

Lemma rank_all (g : Z) (ind : list Z) (i : nat) :
  Forall (fun p => p = g) ind -> i <= length ind -> rank g ind i = i.
Proof.
  intros Hall. revert i. induction Hall as [|p ps Hp _ IH]; intros [|i] Hi;
    cbn in *; try lia; try reflexivity.
  subst p. rewrite Z.eqb_refl, IH by lia. reflexivity.
Qed.

Section FurtherProperties.

Context {R : Type} `{Scalar R}.

Implicit Types (X Y : matrix R) (m : MeanFunction R).

(** ** Evaluation commutes with the selection of rows *)

(** Evaluating a mean function on rows gathered from a batch, in any order
    and with repetitions, gives the rows of the result gathered with the
    same indices: a mini-batch, a permutation or a slice of the data is
    mapped to the same mini-batch, permutation or slice of the outputs. *)
Theorem call_gather_rows m X Y (idx : list nat) :
  call m X = OK Y ->
  Forall (fun k => k < nrows X) idx ->
  call m {| ncols := ncols X; rows := map (fun k => nth k (rows X) []) idx |} =
  OK {| ncols := ncols Y; rows := map (fun k => nth k (rows Y) []) idx |}.
Proof.
  intros HY Hidx.
  set (X' := {| ncols := ncols X; rows := map (fun k => nth k (rows X) []) idx |}).
  assert (Hsub : sub_batch X' X).
  { split; [reflexivity|]. intros r Hr. unfold X' in Hr. cbn [rows] in Hr.
    apply in_map_iff in Hr. destruct Hr as (k & <- & Hk).
    apply nth_In. rewrite Forall_forall in Hidx. apply (Hidx k Hk). }
  destruct (call_sub_batch m X Y HY X' Hsub) as (Y' & HY' & Hc & Hr).
  pose proof (call_nrows _ _ _ HY') as Hn.
  rewrite HY'. f_equal. destruct Y' as [q rs]. cbn [ncols rows] in *.
  subst q. f_equal.
  unfold nrows, X' in Hn. cbn [rows] in Hn. rewrite length_map in Hn.
  apply (nth_ext _ _ [] []); [rewrite length_map; exact Hn|].
  intros n Hlt. rewrite Hn in Hlt.
  rewrite (nth_map_lt _ idx n [] 0) by exact Hlt.
  symmetry. apply Hr.
  - apply (Forall_nth_lt _ _ _ _ Hidx Hlt).
  - unfold nrows, X'. cbn [rows]. rewrite length_map. exact Hlt.
  - unfold X'. cbn [rows]. rewrite (nth_map_lt _ idx n [] 0) by exact Hlt.
    reflexivity.
Qed.

(** A mean function that evaluates on one batch evaluates on the empty
    batch of the same width, to the empty matrix of the output width; and
    the output width is fixed by the mean function and the input width. *)
Theorem call_width_determined m X Y :
  call m X = OK Y ->
  call m {| ncols := ncols X; rows := [] |} = OK {| ncols := ncols Y; rows := [] |} /\
  forall X' Y', ncols X' = ncols X -> call m X' = OK Y' -> ncols Y' = ncols Y.
Proof.
  intros HY.
  assert (HE : forall X0 Y0, call m X0 = OK Y0 ->
            call m {| ncols := ncols X0; rows := [] |} =
            OK {| ncols := ncols Y0; rows := [] |}).
  { intros X0 Y0 H0.
    assert (Hsub : sub_batch {| ncols := ncols X0; rows := [] |} X0)
      by (split; [reflexivity | intros r []]).
    destruct (call_sub_batch m X0 Y0 H0 _ Hsub) as (Y' & HY' & Hc & _).
    pose proof (call_nrows _ _ _ HY') as Hn.
    rewrite HY'. destruct Y' as [q rs]. cbn [ncols] in Hc. subst q.
    unfold nrows in Hn. cbn [rows] in Hn.
    apply length_zero_iff_nil in Hn. subst rs. reflexivity. }
  split; [exact (HE X Y HY)|].
  intros X' Y' Hc HY'.
  pose proof (HE X Y HY) as E1. pose proof (HE X' Y' HY') as E2.
  rewrite Hc, E1 in E2. injection E2 as E2. symmetry. exact E2.
Qed.

(** ** When a switch evaluates *)

(** A switch evaluates exactly when the batch has a column, there is a
    child, every label cast from the last column is a child index, and the
    children evaluate on their groups to one common width.  So it returns
    nothing on a batch without columns, with an empty list of children, or
    when some label is no child index; the module checks none of these
    itself, the evaluation fails in the engine. *)
Theorem Switched_call_succeeds_iff (ms : list (MeanFunction R)) X :
  ((exists Y, call (SwitchedMeanFunction ms) X = OK Y) <->
   (0 < ncols X /\ 0 < length ms /\
    Forall (fun p => label_ok (length ms) p = true) (labels X) /\
    exists Q, forall g, g < length ms ->
      exists Zg, call (nth g ms (Zero 0)) (group g X) = OK Zg /\ ncols Zg = Q)) /\
  (ncols X = 0 \/ length ms = 0 \/
   ~ Forall (fun p => label_ok (length ms) p = true) (labels X) ->
   exists e, call (SwitchedMeanFunction ms) X = Error e).
Proof.
  split; [split|].
  - intros (Y & HY).
    destruct (Switched_call_inv ms X Y HY) as (Hc & HK & Hlab & results & _ & Hres).
    repeat (split; [assumption|]).
    exists (ncols Y). intros g Hg. destruct (Hres g Hg) as (Hcall & HQ & _).
    eauto.
  - intros (Hc & HK & Hlab & Q & Hex).
    destruct (Switched_call_exists ms X Q Hc HK Hlab Hex) as (Y & _ & HY & _).
    eauto.
  - intros Hbad.
    destruct (call (SwitchedMeanFunction ms) X) as [Y|e] eqn:HY; [|eauto].
    exfalso.
    destruct (Switched_call_inv ms X Y HY) as (Hc & HK & Hlab & _).
    destruct Hbad as [E|[E|E]]; [lia | lia | exact (E Hlab)].
Qed.

Lemma features_firstn (D : nat) X :
  wf_matrix X -> ncols X = S D ->
  features X = {| ncols := D; rows := map (firstn D) (rows X) |}.
Proof.
  intros Hwf Hc. unfold features. rewrite Hc. cbn [Nat.sub].
  rewrite Nat.sub_0_r. f_equal. apply map_ext_in. intros r Hr.
  apply row_features_firstn. unfold wf_matrix in Hwf.
  rewrite Forall_forall in Hwf. rewrite (Hwf r Hr). exact Hc.
Qed.

(** ** Partition and stitch are inverse *)

(** A switch whose children all are Identity returns the feature columns
    of the batch, row for row: partitioning the rows by label and stitching
    the groups back with the partition of the row indices reproduces the
    original order, whatever the labels. *)
Theorem Switched_identity_children (K D : nat) (d : option nat) X :
  wf_matrix X -> ncols X = S D -> 0 < K ->
  Forall (fun r => label_ok K (cast_int32 (nth D r szero)) = true) (rows X) ->
  call (SwitchedMeanFunction (repeat (Identity d) K)) X =
  OK {| ncols := D; rows := map (firstn D) (rows X) |}.
Proof.
  intros Hwf Hc HK Hlast.
  rewrite <- (features_firstn D X Hwf Hc).
  set (ms := repeat (Identity (R := R) d) K).
  assert (Hlen : length ms = K) by apply repeat_length.
  assert (Hlab : Forall (fun p => label_ok (length ms) p = true) (labels X)).
  { rewrite Hlen, (labels_last_column D X Hc). apply Forall_map. exact Hlast. }
  assert (Hnth : forall g, g < K -> nth g ms (Zero 0) = Identity d).
  { intros g Hg. unfold ms. apply nth_repeat_lt. exact Hg. }
  destruct (Switched_call_exists ms X (ncols X - 1)) as
    (Y & results & HY & HQ & Hn & _ & Hcall & Hrow);
    [lia | lia | exact Hlab | |].
  { intros g Hg. rewrite Hnth by lia. exists (group g X). split; reflexivity. }
  rewrite HY. f_equal. destruct Y as [q rs]. unfold features.
  cbn [ncols rows] in *. subst q. f_equal.
  unfold nrows in Hn. cbn [rows] in Hn.
  apply (nth_ext _ _ [] []); [rewrite length_map; exact Hn|].
  intros i Hi. rewrite Hn in Hi. fold (nrows X) in Hi.
  rewrite Hrow by exact Hi.
  assert (Hl : label_ok (length ms) (nth i (labels X) 0%Z) = true).
  { apply (Forall_nth_lt _ _ _ _ Hlab). rewrite length_labels. exact Hi. }
  destruct (label_ok_range _ _ Hl) as [Hg _].
  destruct (group_rank (length ms) X i Hi Hl) as [_ Hr2].
  specialize (Hcall _ Hg). rewrite Hnth in Hcall by lia.
  cbn [call] in Hcall. injection Hcall as <-.
  rewrite Hr2. symmetry. apply nth_map_lt. exact Hi.
Qed.

(** ** A batch with a single label *)

(** When every row carries the label g, the switch returns what child g
    returns on the feature columns, provided the other children accept the
    empty batch of D columns with the same output width. *)
Theorem Switched_single_label (ms : list (MeanFunction R)) X (D g : nat)
  (Zg : matrix R) :
  wf_matrix X -> ncols X = S D -> g < length ms ->
  Forall (fun r => cast_int32 (nth D r szero) = Z.of_nat g) (rows X) ->
  call (nth g ms (Zero 0)) {| ncols := D; rows := map (firstn D) (rows X) |} = OK Zg ->
  (forall g', g' < length ms -> g' <> g ->
     exists Z', call (nth g' ms (Zero 0)) {| ncols := D; rows := [] |} = OK Z' /\
                ncols Z' = ncols Zg) ->
  call (SwitchedMeanFunction ms) X = OK Zg.
Proof.
  intros Hwf Hc Hg Hall Hgcall Hothers.
  assert (Hlabs : Forall (fun p => p = Z.of_nat g) (labels X)).
  { rewrite (labels_last_column D X Hc). apply Forall_map. exact Hall. }
  assert (Hlab : Forall (fun p => label_ok (length ms) p = true) (labels X)).
  { apply (Forall_impl _ (P := fun p => p = Z.of_nat g)); [|exact Hlabs].
    intros p ->. unfold label_ok. apply andb_true_intro.
    split; [apply Z.leb_le | apply Z.ltb_lt]; lia. }
  assert (Hgroup : forall g', group g' X =
            {| ncols := D;
               rows := map (firstn D)
                         (filter (fun r => (cast_int32 (nth D r szero) =? Z.of_nat g')%Z)
                                 (rows X)) |}).
  { intros g'. pose proof (group_filter g' D X Hc Hwf) as Hf.
    unfold group in *. cbn [rows] in Hf. rewrite Hf, Hc. cbn [Nat.sub].
    rewrite Nat.sub_0_r. reflexivity. }
  rewrite Forall_forall in Hall.
  assert (Hgg : group g X = {| ncols := D; rows := map (firstn D) (rows X) |}).
  { rewrite Hgroup, filter_all; [reflexivity|].
    intros r Hr. apply Z.eqb_eq. apply Hall. exact Hr. }
  assert (Hge : forall g', g' <> g -> group g' X = {| ncols := D; rows := [] |}).
  { intros g' Hne. rewrite Hgroup, filter_none; [reflexivity|].
    intros r Hr. apply Z.eqb_neq. rewrite (Hall r Hr). lia. }
  destruct (Switched_call_exists ms X (ncols Zg)) as
    (Y & results & HY & HQ & Hn & _ & Hcall & Hrow);
    [lia | lia | exact Hlab | |].
  { intros g' Hg'. destruct (Nat.eq_dec g' g) as [->|Hne].
    - rewrite Hgg. eauto.
    - rewrite (Hge g' Hne). apply Hothers; assumption. }
  rewrite HY. f_equal.
  specialize (Hcall g Hg). rewrite Hgg, Hgcall in Hcall. injection Hcall as Hres.
  pose proof (call_nrows _ _ _ Hgcall) as HnZ.
  unfold nrows at 2 in HnZ. cbn [rows] in HnZ. rewrite length_map in HnZ.
  destruct Y as [q rs], Zg as [qz rz]. cbn [ncols rows] in *. subst q. f_equal.
  unfold nrows in Hn, HnZ. cbn [rows] in Hn, HnZ.
  apply (nth_ext _ _ [] []); [lia|].
  intros i Hi. rewrite Hn in Hi. fold (nrows X) in Hi.
  rewrite Hrow by exact Hi.
  assert (El : nth i (labels X) 0%Z = Z.of_nat g).
  { apply (Forall_nth_lt _ _ _ _ Hlabs). rewrite length_labels. exact Hi. }
  rewrite El, Nat2Z.id, <- Hres. cbn [rows].
  rewrite (rank_all _ _ _ Hlabs); [reflexivity|].
  rewrite length_labels. unfold nrows in *. lia.
Qed.

(** ** Combinators with a constant *)

Lemma Additive_call_eq (f1 f2 : MeanFunction R) X :
  call (Additive f1 f2) X = (a <- call f1 X ;; b <- call f2 X ;; tf_add a b).
Proof. reflexivity. Qed.

Lemma Product_call_eq (f1 f2 : MeanFunction R) X :
  call (Product f1 f2) X = (a <- call f1 X ;; b <- call f2 X ;; tf_multiply a b).
Proof. reflexivity. Qed.

Lemma broadcast_scalar_rows (op : R -> R -> R) (a : matrix R) (s : R) (N : nat) :
  nrows a = N ->
  broadcast_op op a {| ncols := 1; rows := repeat [s] N |} =
  OK {| ncols := ncols a;
        rows := map (fun i => map (fun j => op (nth j (nth i (rows a) []) szero) s)
                                  (seq 0 (ncols a)))
                    (seq 0 (nrows a)) |}.
Proof.
  intros Hn. rewrite broadcast_op_rows_eq
    by (unfold nrows at 2; cbn [rows]; rewrite repeat_length; exact Hn).
  cbn [ncols rows]. rewrite broadcast_dim_one_r. cbn [bind]. f_equal. f_equal.
  apply map_ext_in. intros i Hi. apply in_seq in Hi.
  rewrite nth_repeat_lt by lia. unfold broadcast_row.
  apply map_ext_in. intros j Hj. apply in_seq in Hj.
  rewrite pick_lt by lia. reflexivity.
Qed.

(** Combining any mean function with a one-element Constant acts entry by
    entry: Additive adds the constant to every entry of the output,
    Product multiplies every entry by it, whatever the output width (the
    single column of the constant is broadcast). *)
Theorem Constant_scalar_broadcast (f : MeanFunction R) (s : R) X (a : matrix R) :
  call f X = OK a ->
  exists S P,
    call (Additive f (Constant [s])) X = OK S /\
    call (Product f (Constant [s])) X = OK P /\
    tf_shape S = tf_shape a /\ tf_shape P = tf_shape a /\
    forall i j, i < nrows X -> j < ncols a ->
      entry S i j = sadd (entry a i j) s /\
      entry P i j = smul (entry a i j) s.
Proof.
  intros Ha. pose proof (call_nrows _ _ _ Ha) as Hn.
  rewrite Additive_call_eq, Product_call_eq, Ha, Constant_call_eq. cbn [bind].
  unfold tf_add, tf_multiply. cbn [length].
  rewrite !broadcast_scalar_rows by exact Hn.
  eexists. eexists. split; [reflexivity|]. split; [reflexivity|].
  split; [|split].
  - unfold tf_shape, nrows. cbn [rows ncols]. rewrite length_map, length_seq.
    reflexivity.
  - unfold tf_shape, nrows. cbn [rows ncols]. rewrite length_map, length_seq.
    reflexivity.
  - intros i j Hi Hj. rewrite <- Hn in Hi. unfold entry. cbn [rows].
    repeat (rewrite nth_map_seq by assumption; cbn [Nat.add]).
    split; reflexivity.
Qed.

(** Where 0 is neutral for the addition and 1 for the multiplication of
    the scalars, adding the default Zero() to a mean function, or
    multiplying it by Constant([1]), changes nothing, whatever the output
    width. *)
Theorem Zero_and_one_are_neutral (f : MeanFunction R) X (a : matrix R) :
  (forall x, sadd x szero = x) -> (forall x, smul x sone = x) ->
  wf_matrix X -> call f X = OK a ->
  call (Additive f (Zero 1)) X = OK a /\
  call (Product f (Constant [sone])) X = OK a.
Proof.
  intros Hadd Hmul Hwf Ha. pose proof (call_nrows _ _ _ Ha) as Hn.
  pose proof (call_wf _ _ _ Hwf Ha) as Hwfa.
  assert (Hrows : forall (op : R -> R -> R) (s : R),
            (forall x, op x s = x) ->
            map (fun i => map (fun j => op (nth j (nth i (rows a) []) szero) s)
                              (seq 0 (ncols a)))
                (seq 0 (nrows a)) = rows a).
  { intros op s Hop.
    transitivity (map (fun i => nth i (rows a) []) (seq 0 (length (rows a))));
      [|apply map_nth_seq].
    apply map_ext_in. intros i Hi. apply in_seq in Hi.
    transitivity (map (fun j => nth j (nth i (rows a) []) szero)
                      (seq 0 (length (nth i (rows a) []))));
      [|apply map_nth_seq].
    rewrite (wf_row_length a i Hwfa) by (unfold nrows in *; lia).
    apply map_ext. intros j. apply Hop. }
  rewrite Additive_call_eq, Product_call_eq, Ha, Zero_call_eq, Constant_call_eq.
  cbn [bind]. unfold tf_add, tf_multiply. cbn [length repeat].
  rewrite !broadcast_scalar_rows by exact Hn.
  rewrite (Hrows sadd szero Hadd), (Hrows smul sone Hmul).
  destruct a as [q rs]. split; reflexivity.
Qed.

(** A Constant whose parameter is all zeros evaluates as Zero does, and so
    do the two classes built with their defaults. *)
Theorem Constant_zeros_is_Zero (q : nat) X :
  call (Constant (tf_zeros_1d q)) X = call (Zero q) X /\
  call (Constant_init None) X = call (Zero 1) X.
Proof.
  unfold Constant_init. rewrite !Constant_call_eq, !Zero_call_eq.
  unfold tf_zeros_1d. rewrite repeat_length. split; reflexivity.
Qed.

(** The tree of the module's example, mean1 + mean2 * mean3, evaluates
    entry by entry to m1 + m2 * m3 when the three outputs have one width. *)
Theorem sum_with_product_call (m1 m2 m3 : MeanFunction R) X (a b c : matrix R) :
  call m1 X = OK a -> call m2 X = OK b -> call m3 X = OK c ->
  ncols a = ncols b -> ncols b = ncols c ->
  exists Y,
    call (mf_add m1 (mf_mul m2 m3)) X = OK Y /\
    tf_shape Y = tf_shape a /\
    forall i j, i < nrows X -> j < ncols a ->
      entry Y i j = sadd (entry a i j) (smul (entry b i j) (entry c i j)).
Proof.
  intros Ha Hb Hc Hab Hbc.
  pose proof (call_nrows _ _ _ Ha) as Hna.
  pose proof (call_nrows _ _ _ Hb) as Hnb.
  pose proof (call_nrows _ _ _ Hc) as Hnc.
  destruct (broadcast_op_same_shape smul b c) as (P & HP & HPs & HPe);
    [congruence | exact Hbc |].
  unfold tf_shape in HPs. injection HPs as HPn HPc.
  destruct (broadcast_op_same_shape sadd a P) as (Y & HY & HYs & HYe);
    [congruence | congruence |].
  exists Y. unfold mf_add, mf_mul.
  rewrite Additive_call_eq, Product_call_eq, Ha, Hb, Hc. cbn [bind].
  unfold tf_multiply. rewrite HP. cbn [bind]. unfold tf_add.
  split; [exact HY|]. split; [exact HYs|].
  intros i j Hi Hj. rewrite HYe by (try rewrite Hna; assumption).
  rewrite HPe by (try rewrite Hnb; try rewrite <- Hab; assumption).
  reflexivity.
Qed.

(** ** Linear: broadcasting of b, defaults, and the identity matrix *)

(** Linear evaluates exactly when the width of X is the row count of A
    and the length of b is broadcast-compatible with the column count of A:
    equal, or one of the two is 1.  With matching matmul dimensions and an
    incompatible b the evaluation fails in the addition.  The output width
    is the broadcast of the two. *)
Theorem Linear_call_succeeds_iff (A : matrix R) (b : list R) X :
  ((exists Y, call (Linear A b) X = OK Y) <->
   (ncols X = nrows A /\
    (ncols A = length b \/ ncols A = 1 \/ length b = 1))) /\
  (ncols X = nrows A ->
   ncols A <> length b -> ncols A <> 1 -> length b <> 1 ->
   call (Linear A b) X = Error IncompatibleShapes) /\
  (forall Y, call (Linear A b) X = OK Y ->
     tf_shape Y = [nrows X; if ncols A =? 1 then length b else ncols A]).
Proof.
  rewrite Linear_call_eq. unfold broadcast_dim.
  destruct (ncols X =? nrows A) eqn:EX;
    [apply Nat.eqb_eq in EX | apply Nat.eqb_neq in EX].
  2:{ split; [split|split].
      - intros (Y & HY). discriminate.
      - intros (E & _). contradiction.
      - intros E. contradiction.
      - intros Y HY. discriminate. }
  destruct (ncols A =? length b) eqn:E1;
    [apply Nat.eqb_eq in E1 | apply Nat.eqb_neq in E1];
  destruct (ncols A =? 1) eqn:E2;
    [apply Nat.eqb_eq in E2 | apply Nat.eqb_neq in E2 | apply Nat.eqb_eq in E2
     | apply Nat.eqb_neq in E2];
  try (destruct (length b =? 1) eqn:E3;
       [apply Nat.eqb_eq in E3 | apply Nat.eqb_neq in E3]);
  cbn [bind];
  (split; [split|split]);
  try (intros; exfalso; lia);
  try (intros _; split; [exact EX | lia]);
  try (intros _; eexists; reflexivity);
  try (intros (Y & HY); discriminate);
  try (intros (_ & [E|[E|E]]); exfalso; lia);
  try reflexivity;
  try (intros Y HY; injection HY as <-; unfold tf_shape, nrows; cbn [rows ncols];
       rewrite length_map; try rewrite <- E1; try rewrite E2; reflexivity);
  try (intros Y HY; discriminate).
Qed.

(** With a one-element b, as the default b is, Linear adds that element
    to every column of the product X.A. *)
Theorem Linear_scalar_offset (A : matrix R) (b0 : R) X :
  wf_matrix X -> ncols X = nrows A ->
  Linear_init (Some A) None = Linear A [szero] /\
  exists Y,
    call (Linear A [b0]) X = OK Y /\
    tf_shape Y = [nrows X; ncols A] /\
    forall i j, i < nrows X -> j < ncols A ->
      entry Y i j =
      sadd (sigma (ncols X) (fun k => smul (entry X i k) (entry A k j))) b0.
Proof.
  intros Hwf HD. split; [reflexivity|].
  rewrite Linear_call_eq, (proj2 (Nat.eqb_eq _ _) HD). cbn [length].
  rewrite broadcast_dim_one_r. cbn [bind].
  eexists. split; [reflexivity|]. split.
  - unfold tf_shape, nrows. cbn [rows ncols]. rewrite length_map. reflexivity.
  - intros i j Hi Hj. unfold entry at 1. cbn [rows].
    rewrite (nth_map_lt _ (rows X) i [] []) by exact Hi.
    unfold linear_row. rewrite nth_broadcast_row by exact Hj.
    rewrite pick_lt by exact Hj. rewrite nth_map_seq by exact Hj.
    cbn [Nat.add length]. change (pick 1 j [b0] szero) with b0. f_equal.
    rewrite (dot_sigma _ (column j A) (ncols X)).
    + apply sigma_ext. intros k Hk. rewrite column_nth by lia. reflexivity.
    + apply wf_row_length; assumption.
    + rewrite length_column. symmetry. exact HD.
Qed.

Lemma sigma_S (n : nat) (u : nat -> R) :
  sigma (S n) u = sadd (sigma n u) (u n).
Proof.
  unfold sigma. rewrite seq_S, fold_left_app. reflexivity.
Qed.

Section ScalarLaws.

Hypothesis sadd_0_l : forall x : R, sadd szero x = x.
Hypothesis sadd_0_r : forall x : R, sadd x szero = x.
Hypothesis smul_1_r : forall x : R, smul x sone = x.

Lemma sigma_zero (n : nat) (u : nat -> R) :
  (forall k, k < n -> u k = szero) -> sigma n u = szero.
Proof.
  induction n as [|n IH]; intros Hu; [reflexivity|].
  rewrite sigma_S, IH, Hu, sadd_0_l by auto. reflexivity.
Qed.

Lemma sigma_delta (n j : nat) (v : nat -> R) :
  j < n ->
  (forall k, k < n -> k <> j -> smul (v k) szero = szero) ->
  sigma n (fun k => smul (v k) (if k =? j then sone else szero)) = v j.
Proof.
  induction n as [|n IH]; intros Hj Habs; [lia|].
  rewrite sigma_S. destruct (Nat.eq_dec j n) as [->|Hne].
  - rewrite sigma_zero.
    + rewrite Nat.eqb_refl, smul_1_r, sadd_0_l. reflexivity.
    + intros k Hk. rewrite (proj2 (Nat.eqb_neq k n)) by lia.
      apply Habs; lia.
  - rewrite IH; [| lia | intros k Hk Hkj; apply Habs; lia].
    rewrite (proj2 (Nat.eqb_neq n j)) by lia.
    rewrite Habs by lia. apply sadd_0_r.
Qed.

Lemma Linear_eye_zeros_call (D : nat) X :
  wf_matrix X -> ncols X = D ->
  (forall x, In x (rows X) ->
     forall k j, k < D -> j < D -> k <> j -> smul (nth k x szero) szero = szero) ->
  call (Linear (tf_eye D) (tf_zeros_1d D)) X = OK X.
Proof.
  intros Hwf HD Habs.
  assert (HnA : nrows (tf_eye (R := R) D) = D)
    by (unfold nrows, tf_eye; cbn [rows]; rewrite length_map, length_seq;
        reflexivity).
  rewrite Linear_call_eq, HnA, (proj2 (Nat.eqb_eq _ _) HD).
  unfold tf_zeros_1d at 1. rewrite repeat_length.
  change (ncols (tf_eye D)) with D. rewrite broadcast_dim_same. cbn [bind].
  destruct X as [c rs]. cbn [ncols rows] in *. subst c. f_equal. f_equal.
  rewrite <- (map_id rs) at 2. apply map_ext_in. intros x Hx.
  assert (Hlx : length x = D).
  { unfold wf_matrix in Hwf. cbn [rows ncols] in Hwf.
    rewrite Forall_forall in Hwf. exact (Hwf x Hx). }
  apply (nth_ext _ _ szero szero).
  - unfold linear_row. rewrite length_broadcast_row. symmetry. exact Hlx.
  - intros j Hj. unfold linear_row in Hj. rewrite length_broadcast_row in Hj.
    pose proof (linear_row_entry (tf_eye D) (tf_zeros_1d D) x j) as He.
    change (ncols (tf_eye D)) with D in He. rewrite HnA in He.
    rewrite He; [| exact Hlx | apply repeat_length | exact Hj].
    unfold tf_zeros_1d. rewrite nth_repeat, sadd_0_r.
    rewrite (sigma_ext D _ (fun k => smul (nth k x szero)
                                          (if k =? j then sone else szero))).
    + apply (sigma_delta D j (fun k => nth k x szero) Hj).
      intros k Hk Hkj. apply (Habs x Hx k j); assumption.
    + intros k Hk. rewrite tf_eye_entry by assumption. reflexivity.
Qed.

(** Over scalars in which 0 and 1 are neutral, the Linear mean function
    built from the A and b that Identity computes is the Identity itself on
    every batch of width input_dim whose entries x satisfy x * 0 = 0.  (In
    floating point an infinite or NaN entry does not, and there the product
    with the identity matrix does not return it.) *)
Theorem Identity_agrees_with_its_A_b (D : nat) X (A : matrix R) (b : list R) :
  wf_matrix X -> ncols X = D ->
  (forall i k, i < nrows X -> k < ncols X -> smul (entry X i k) szero = szero) ->
  get_A (Identity (Some D)) = OK A -> get_b (Identity (Some D)) = OK b ->
  call (Linear A b) X = call (Identity (Some D)) X.
Proof.
  intros Hwf HD Habs HA Hb. cbn in HA, Hb. injection HA as <-. injection Hb as <-.
  rewrite (Linear_eye_zeros_call D X Hwf HD); [reflexivity|].
  intros x Hx k j Hk _ _.
  destruct (In_nth _ _ [] Hx) as (i & Hi & Ei).
  specialize (Habs i k Hi). unfold entry in Habs. rewrite Ei in Habs.
  apply Habs. lia.
Qed.

(** Linear built with its defaults, A = [[1]] and b = [0], returns a batch
    of one column unchanged (over scalars in which 0 and 1 are neutral) and
    fails in the matmul on every other width. *)
Theorem Linear_default_call X :
  (wf_matrix X -> ncols X = 1 -> call (Linear_init None None) X = OK X) /\
  (ncols X <> 1 -> call (Linear_init None None) X = Error DimensionMismatch).
Proof.
  split.
  - intros Hwf HD. apply (Linear_eye_zeros_call 1 X Hwf HD).
    intros x _ k j Hk Hj Hkj. lia.
  - intros HD. unfold Linear_init. rewrite Linear_call_eq.
    change (nrows {| ncols := 1; rows := [[sone]] |}) with 1.
    rewrite (proj2 (Nat.eqb_neq _ _) HD). reflexivity.
Qed.

End ScalarLaws.

End FurtherProperties.

(** * Concrete evaluations for the further properties *)

Lemma wf_XZ_example : wf_matrix XZ_example.
Proof. unfold wf_matrix. cbn. repeat constructor. Defined.

Lemma call_gather_rows_witness :
  call switched_example
       {| ncols := 2; rows := [[(3 # 10)%Q; 0%Q]; [(1 # 10)%Q; 0%Q]] |} =
  OK {| ncols := 1; rows := [[1%Q]; [1%Q]] |}.
Proof.
  apply (call_gather_rows (R := Q) switched_example X_example
           {| ncols := 1; rows := [[1%Q]; [2%Q]; [1%Q]] |} [2; 0]
           switched_example_value).
  repeat first [apply Forall_nil | apply Forall_cons; [cbn; lia|]].
Defined.

Lemma call_width_determined_witness :
  call switched_example {| ncols := 2; rows := [] |} =
  OK {| ncols := 1; rows := [] |}.
Proof.
  apply (proj1 (call_width_determined (R := Q) switched_example X_example
                  {| ncols := 1; rows := [[1%Q]; [2%Q]; [1%Q]] |}
                  switched_example_value)).
Defined.

Lemma Switched_call_succeeds_iff_witness :
  (exists Y, call switched_example X_example = OK Y) /\
  (exists e, call switched_example {| ncols := 0; rows := [[]; []] |} = Error e) /\
  (exists e, call (SwitchedMeanFunction [Constant [1%Q]]) X_example = Error e).
Proof.
  split; [|split].
  - apply (proj2 (proj1 (Switched_call_succeeds_iff (R := Q)
                           [Constant [1%Q]; Constant [2%Q]] X_example))).
    split; [cbn; lia|]. split; [cbn; lia|].
    split; [cbn; repeat constructor|].
    exists 1. intros [|[|g]] Hg.
    + eexists. split; reflexivity.
    + eexists. split; reflexivity.
    + exfalso. cbn in Hg. lia.
  - apply (proj2 (Switched_call_succeeds_iff (R := Q)
                    [Constant [1%Q]; Constant [2%Q]]
                    {| ncols := 0; rows := [[]; []] |})).
    left. reflexivity.
  - apply (proj2 (Switched_call_succeeds_iff (R := Q)
                    [Constant [1%Q]] X_example)).
    right. right. intros Hall. cbn in Hall.
    inversion Hall as [|? ? _ Hrest]. inversion Hrest as [|? ? Hbad _].
    discriminate Hbad.
Defined.

Lemma Switched_identity_children_witness :
  call (SwitchedMeanFunction [Identity None; Identity None]) X_example =
  OK {| ncols := 1; rows := [[(1 # 10)%Q]; [(2 # 10)%Q]; [(3 # 10)%Q]] |}.
Proof.
  apply (Switched_identity_children (R := Q) 2 1 None X_example
           wf_X_example eq_refl (Nat.lt_0_succ 1) labels_X_example).
Defined.

Lemma Switched_single_label_witness :
  call switched_example X_other = OK {| ncols := 1; rows := [[2%Q]; [2%Q]; [2%Q]] |}.
Proof.
  apply (Switched_single_label (R := Q) [Constant [1%Q]; Constant [2%Q]]
           X_other 1 1 {| ncols := 1; rows := [[2%Q]; [2%Q]; [2%Q]] |}
           wf_X_other eq_refl (Nat.lt_succ_diag_r 1)).
  - cbn. repeat constructor.
  - reflexivity.
  - intros [|[|g']] Hg' Hne.
    + eexists. split; reflexivity.
    + exfalso. apply Hne. reflexivity.
    + exfalso. cbn in Hg'. lia.
Defined.

Lemma Constant_scalar_broadcast_witness :
  exists S P,
    call (Additive (Identity None) (Constant [5%Q])) X_example = OK S /\
    call (Product (Identity None) (Constant [5%Q])) X_example = OK P /\
    entry S 1 0 = sadd (2 # 10)%Q 5%Q /\
    entry P 1 0 = smul (2 # 10)%Q 5%Q.
Proof.
  destruct (Constant_scalar_broadcast (R := Q) (Identity None) 5%Q X_example
              X_example eq_refl)
    as (S & P & HS & HP & _ & _ & He).
  exists S, P. split; [exact HS|]. split; [exact HP|].
  apply (He 1 0); cbn; lia.
Defined.

Lemma Zero_and_one_are_neutral_witness :
  call (Additive (Identity None) (Zero 1)) XZ_example = OK XZ_example /\
  call (Product (Identity None) (Constant [1%Z])) XZ_example = OK XZ_example.
Proof.
  apply (@Zero_and_one_are_neutral Z Z_scalar (Identity None) XZ_example XZ_example
           Z.add_0_r Z.mul_1_r wf_XZ_example eq_refl).
Defined.

Lemma sum_with_product_call_witness :
  exists Y,
    call (mf_add (Constant [1%Q]) (mf_mul (Constant [2%Q]) (Constant [3%Q])))
         X_example = OK Y /\
    entry Y 0 0 = sadd 1%Q (smul 2%Q 3%Q).
Proof.
  destruct (sum_with_product_call (R := Q)
              (Constant [1%Q]) (Constant [2%Q]) (Constant [3%Q]) X_example
              {| ncols := 1; rows := [[1%Q]; [1%Q]; [1%Q]] |}
              {| ncols := 1; rows := [[2%Q]; [2%Q]; [2%Q]] |}
              {| ncols := 1; rows := [[3%Q]; [3%Q]; [3%Q]] |}
              eq_refl eq_refl eq_refl eq_refl eq_refl)
    as (Y & HY & _ & He).
  exists Y. split; [exact HY|]. apply (He 0 0); cbn; lia.
Defined.

Lemma Linear_call_succeeds_iff_witness :
  (exists Y, call (Linear A_example b_example) X_example = OK Y) /\
  call (Linear {| ncols := 2; rows := [[1%Q; 2%Q]; [3%Q; 4%Q]] |}
               [1%Q; 2%Q; 3%Q]) X_example = Error IncompatibleShapes.
Proof.
  split.
  - apply (proj2 (proj1 (Linear_call_succeeds_iff (R := Q)
                           A_example b_example X_example))).
    split; [reflexivity | left; reflexivity].
  - apply (proj1 (proj2 (Linear_call_succeeds_iff (R := Q)
                           {| ncols := 2; rows := [[1%Q; 2%Q]; [3%Q; 4%Q]] |}
                           [1%Q; 2%Q; 3%Q] X_example))); cbn; lia.
Defined.

Lemma Linear_scalar_offset_witness :
  exists Y,
    call (Linear {| ncols := 2; rows := [[1%Q; 2%Q]; [3%Q; 4%Q]] |} [7%Q])
         X_example = OK Y /\
    tf_shape Y = [3; 2] /\
    entry Y 1 1 =
      sadd (sigma 2 (fun k =>
              smul (entry X_example 1 k)
                   (entry {| ncols := 2; rows := [[1%Q; 2%Q]; [3%Q; 4%Q]] |} k 1)))
           7%Q.
Proof.
  destruct (Linear_scalar_offset (R := Q)
              {| ncols := 2; rows := [[1%Q; 2%Q]; [3%Q; 4%Q]] |} 7%Q X_example
              wf_X_example eq_refl)
    as (_ & Y & HY & Hs & He).
  exists Y. split; [exact HY|]. split; [exact Hs|].
  apply (He 1 1); cbn; lia.
Defined.

Lemma Identity_agrees_with_its_A_b_witness :
  call (Linear (tf_eye 2) (tf_zeros_1d 2)) XZ_example =
  call (Identity (Some 2)) XZ_example.
Proof.
  apply (@Identity_agrees_with_its_A_b Z Z_scalar
           Z.add_0_l Z.add_0_r Z.mul_1_r 2 XZ_example
           (tf_eye 2) (tf_zeros_1d 2) wf_XZ_example eq_refl);
    [| reflexivity | reflexivity].
  intros i k _ _. apply Z.mul_0_r.
Defined.

Lemma Linear_default_call_witness :
  call (Linear_init None None) {| ncols := 1; rows := [[4%Z]; [6%Z]] |} =
    OK {| ncols := 1; rows := [[4%Z]; [6%Z]] |} /\
  call (Linear_init None None) XZ_example = Error DimensionMismatch.
Proof.
  split.
  - apply (proj1 (@Linear_default_call Z Z_scalar
                    Z.add_0_l Z.add_0_r Z.mul_1_r
                    {| ncols := 1; rows := [[4%Z]; [6%Z]] |})).
    + unfold wf_matrix. cbn. repeat constructor.
    + reflexivity.
  - apply (proj2 (@Linear_default_call Z Z_scalar
                    Z.add_0_l Z.add_0_r Z.mul_1_r XZ_example)).
    cbn. lia.
Defined.
